(** * Attribute delegation ([hikari.internal_utilities.delegate])

    A shallow embedding of [DelegatedProperty] and [delegate_to] over a small
    model of the Python object store: classes with a method resolution order
    and a [__dict__], instances with slots and an optional [__dict__], and
    the descriptor protocol that decides how an attribute read or write on
    an instance is resolved.

    Classes have the default metaclass and the default [__getattribute__]
    and [__setattr__]; [issubclass] is membership in the MRO. The heap may
    hold instances while a class is decorated: [setattr] on a class is seen
    by the instances that exist as by those created later. *)

From Stdlib Require Import String.
From stdpp Require Import gmap strings list fin_maps.

Local Open Scope string_scope.
Set Warnings "-register-all,-clear-no-such-hyp".

Module Delegate.

(** ** Values and heap objects *)

Definition loc := positive.

(** Python values, as far as the module looks at them. [VFunction] is what
    [inspect.isfunction] accepts, [VMethod] what [inspect.ismethod] accepts
    (a bound method); [VMemberDescriptor] is the descriptor that a
    [__slots__] entry leaves in the class [__dict__]. Objects with identity
    (classes, instances, accessors) live in the heap and are [VRef]s. *)
Inductive value :=
| VNone
| VInt (n : Z)
| VStr (s : string)
| VFunction (qualname : string)
| VMethod (qualname : string)
| VMemberDescriptor (slot : string)
| VTuple (items : list value)
| VFrozenset (names : gset string)
| VDict (items : list (string * value))
| VRef (l : loc).

(** The instance state of a [DelegatedProperty]: the two attributes that
    [__init__] stores, and the [__doc__] that [delegate_to] sets afterwards. *)
Record DelegatedProperty := {
  magic_field : string;
  delegated_member_name : string;
  doc : option string
}.

(** A class: [c_ancestors] is [__mro__] without its first entry (the class
    itself); [c_dict] is the class [__dict__]. *)
Record class_obj := {
  c_name : string;
  c_ancestors : list loc;
  c_dict : gmap string value
}.

(** An instance: slot storage, and a [__dict__] unless the class is fully
    slotted ([None]). *)
Record instance_obj := {
  i_class : loc;
  i_slots : gmap string value;
  i_dict : option (gmap string value)
}.

Inductive obj :=
| OClass (c : class_obj)
| OInstance (i : instance_obj)
| OProperty (p : DelegatedProperty).

Abbreviation heap := (gmap loc obj).

(** Exceptions. [NotImplementedError] is the error the specification names
    for a write through an accessor. *)
Inductive exn :=
| ConfigurationError
| NotImplementedError
| TypeError
| AttributeError
| RecursionError.

Inductive outcome (A : Type) :=
| Return (a : A)
| Raise (e : exn).
Arguments Return {A} a.
Arguments Raise {A} e.

Definition obind {A B} (m : outcome A) (k : A → outcome B) : outcome B :=
  match m with
  | Return a => k a
  | Raise e => Raise e
  end.

Notation "'do' x <- m ; k" := (obind m (fun x => k))
  (at level 10, x name, m at level 100, k at level 200).

(** ** Attribute lookup *)

Definition class_dict (σ : heap) (l : loc) : option (gmap string value) :=
  match σ !! l with
  | Some (OClass c) => Some (c_dict c)
  | _ => None
  end.

(** [__mro__]: the class first, then its ancestors. *)
Definition mro (σ : heap) (cls : loc) : list loc :=
  match σ !! cls with
  | Some (OClass c) => cls :: c_ancestors c
  | _ => []
  end.

(** The first [__dict__] along a list of classes that has [name]. *)
Fixpoint lookup_along (σ : heap) (ls : list loc) (name : string) : option value :=
  match ls with
  | [] => None
  | l :: ls' =>
      match class_dict σ l ≫= (λ d, d !! name) with
      | Some v => Some v
      | None => lookup_along σ ls' name
      end
  end.

Definition type_lookup (σ : heap) (cls : loc) (name : string) : option value :=
  lookup_along σ (mro σ cls) name.

Definition is_not_None (v : value) : bool :=
  match v with
  | VNone => false
  | _ => true
  end.

(** [DelegatedProperty.__init__]. *)
Definition DelegatedProperty__init__ (magic_field delegated_member_name : string)
  : DelegatedProperty :=
  {| magic_field := magic_field;
     delegated_member_name := delegated_member_name;
     doc := None |}.

(** [DelegatedProperty.__get__]; [getattr] is the attribute read it calls,
    [self] the location of the accessor and [p] its state. *)
Definition DelegatedProperty__get__ (getattr : value → string → outcome value)
    (self : loc) (p : DelegatedProperty) (instance owner : value) : outcome value :=
  if is_not_None instance then
    do delegated_object <- getattr instance (magic_field p);
    getattr delegated_object (delegated_member_name p)
  else
    Return (VRef self).

(** Calling [__get__] on a class attribute that was found by the lookup:
    accessors forward, functions bind to the instance, anything else is
    returned as it is. *)
Definition descr_get (getattr : value → string → outcome value) (σ : heap)
    (attr instance owner : value) : outcome value :=
  match attr with
  | VRef a =>
      match σ !! a with
      | Some (OProperty p) => DelegatedProperty__get__ getattr a p instance owner
      | _ => Return attr
      end
  | VFunction q => if is_not_None instance then Return (VMethod q) else Return attr
  | _ => Return attr
  end.

(** The docstring of the class [DelegatedProperty], which an accessor shows
    until [delegate_to] gives it one of its own. *)
Definition DelegatedProperty__doc__ : string :=
  let nl := String (Ascii.ascii_of_nat 10) "" in
  let dq := String (Ascii.ascii_of_nat 34) "" in
  nl +:+ "    Delegating property that takes a magic field name and a delegated member name and redirects"
  +:+ nl +:+ "    any accession of the property's value to the attribute named "
  +:+ dq +:+ "delegated_member_name" +:+ dq +:+ " that"
  +:+ nl +:+ "    belongs to field " +:+ dq +:+ "magic_field" +:+ dq
  +:+ " on the class it is applied to."
  +:+ nl +:+ nl +:+ "    Note:"
  +:+ nl +:+ "        This property is read-only, and only works for instance members."
  +:+ nl +:+ "    ".

(** The attributes of an accessor object itself. *)
Definition property_attr (p : DelegatedProperty) (name : string) : outcome value :=
  if decide (name = "magic_field") then Return (VStr (magic_field p))
  else if decide (name = "delegated_member_name") then Return (VStr (delegated_member_name p))
  else if decide (name = "__doc__") then Return (VStr (default DelegatedProperty__doc__ (doc p)))
  else Raise AttributeError.

(** [getattr(o, name)], where [getattr] stands for the nested reads, one
    level further down. On an instance this is
    [object.__getattribute__]: a data descriptor of the class (a slot) wins,
    then the instance [__dict__], then a non-data descriptor or plain class
    attribute. [DelegatedProperty] defines [__get__] only, so it is a
    non-data descriptor. On a class it is [type.__getattribute__] with the
    default metaclass. Attributes of values that are not heap objects are
    outside the model and read as missing. In [getattr], [fuel] bounds the
    depth of nested reads, as the interpreter's recursion limit does. *)
Definition getattr_at_depth (getattr : value → string → outcome value) (σ : heap)
    (o : value) (name : string) : outcome value :=
  match o with
  | VRef l =>
      match σ !! l with
      | Some (OInstance i) =>
          let cls_attr := type_lookup σ (i_class i) name in
          match cls_attr with
          | Some (VMemberDescriptor slot) =>
              from_option Return (Raise AttributeError) (i_slots i !! slot)
          | _ =>
              match i_dict i ≫= (λ d, d !! name) with
              | Some v => Return v
              | None =>
                  match cls_attr with
                  | Some attr => descr_get getattr σ attr o (VRef (i_class i))
                  | None => Raise AttributeError
                  end
              end
          end
      | Some (OClass _) =>
          match type_lookup σ l name with
          | Some attr => descr_get getattr σ attr VNone o
          | None => Raise AttributeError
          end
      | Some (OProperty p) => property_attr p name
      | None => Raise AttributeError
      end
  | _ => Raise AttributeError
  end.

Fixpoint getattr (fuel : nat) (σ : heap) (o : value) (name : string) : outcome value :=
  match fuel with
  | O => Raise RecursionError
  | S fuel' => getattr_at_depth (getattr fuel' σ) σ o name
  end.

(** Reading an attribute of a class object: every [__get__] is called with
    no instance and returns without a nested read, so one level of depth is
    enough (see [getattr_class_depth]). *)
Definition class_getattr (σ : heap) (cls : loc) (name : string) : outcome value :=
  getattr 1 σ (VRef cls) name.

(** [getattr(cls, name, default)]: only a missing attribute yields the
    default. *)
Definition class_getattr_default (σ : heap) (cls : loc) (name : string)
    (default : value) : outcome value :=
  match class_getattr σ cls name with
  | Raise AttributeError => Return default
  | r => r
  end.

(** ** Attribute assignment *)

(** Operations that may change the heap. An exception leaves the heap as it
    was when it was raised. *)
Definition M (A : Type) : Type := heap → outcome A * heap.

Definition ret {A} (a : A) : M A := λ σ, (Return a, σ).
Definition throw {A} (e : exn) : M A := λ σ, (Raise e, σ).
Definition bind {A B} (m : M A) (k : A → M B) : M B :=
  λ σ, match m σ with
       | (Return a, σ') => k a σ'
       | (Raise e, σ') => (Raise e, σ')
       end.
(** A read of the heap that may raise. *)
Definition read {A} (f : heap → outcome A) : M A := λ σ, (f σ, σ).

Notation "'let!' x := m 'in' k" := (bind m (fun x => k))
  (at level 10, x name, m at level 100, k at level 200).
Notation "m ;; k" := (bind m (fun _ => k))
  (at level 100, k at level 200, right associativity).

(** A new object at an unused location. *)
Definition alloc (o : obj) : M loc :=
  λ σ, let l := fresh (dom σ) in (Return l, <[l := o]> σ).

(** The attributes of a class that belong to the metatype and cannot be
    assigned: its read-only members and properties. *)
Definition readonly_type_attributes : gset string :=
  {[ "__mro__"; "__dict__"; "__base__"; "__basicsize__"; "__itemsize__";
     "__flags__"; "__weakrefoffset__"; "__dictoffset__"; "__text_signature__" ]}.

(** The attributes of a class that the metatype sets itself and for which it
    accepts one kind of value only. *)
Definition typed_type_attributes : gset string :=
  {[ "__name__"; "__qualname__"; "__bases__"; "__class__" ]}.

(** The names that [type.__setattr__] does not simply store. *)
Definition intercepted (name : string) : bool :=
  bool_decide (name ∈ readonly_type_attributes ∪ typed_type_attributes).

(** Names without the leading double underscore: the metatype reserves
    none of them. *)
Definition ordinary_names (names : gset string) : Prop :=
  set_Forall (λ name, String.prefix "__" name = false) names.

#[global] Instance ordinary_names_dec names : Decision (ordinary_names names).
Proof. unfold ordinary_names. apply _. Defined.

(** What [type.__setattr__] makes of a class. A read-only attribute raises
    [AttributeError]. [__name__] and [__qualname__] take a string, which is
    not stored in the [__dict__], and raise [TypeError] for anything else;
    [__class__] cannot be assigned on a class whose metaclass is [type].
    [__bases__] raises [TypeError] for anything but a tuple of classes; such
    a tuple would rebuild the MRO of the class and of its subclasses, which
    this model, keeping the linearised MRO only, does not follow: it is
    refused as well. Every other name is stored in the class's own
    [__dict__]. *)
Definition type_setattr_class (name : string) (v : value) (c : class_obj)
  : outcome class_obj :=
  if bool_decide (name ∈ readonly_type_attributes) then Raise AttributeError
  else if bool_decide (name ∈ typed_type_attributes) then
    match v with
    | VStr s =>
        if decide (name = "__name__") then
          Return {| c_name := s; c_ancestors := c_ancestors c; c_dict := c_dict c |}
        else if decide (name = "__qualname__") then Return c
        else Raise TypeError
    | _ => Raise TypeError
    end
  else
    Return {| c_name := c_name c;
              c_ancestors := c_ancestors c;
              c_dict := <[name := v]> (c_dict c) |}.

(** [setattr(cls, name, v)] on a class: [type.__setattr__]. *)
Definition type_setattr (cls : loc) (name : string) (v : value) : M unit :=
  λ σ, match σ !! cls with
       | Some (OClass c) =>
           match type_setattr_class name v c with
           | Return c' => (Return (), <[cls := OClass c']> σ)
           | Raise e => (Raise e, σ)
           end
       | _ => (Raise TypeError, σ)
       end.

(** [setattr(h, name, v)] on an instance: [object.__setattr__]. Only a data
    descriptor of the class intercepts the write; a slot stores into the
    slot, and [DelegatedProperty] has no [__set__], so the write goes to the
    instance [__dict__], or fails when there is none. *)
Definition object_setattr (h : loc) (name : string) (v : value) : M unit :=
  λ σ, match σ !! h with
       | Some (OInstance i) =>
           match type_lookup σ (i_class i) name with
           | Some (VMemberDescriptor slot) =>
               (Return (),
                <[h := OInstance {| i_class := i_class i;
                                    i_slots := <[slot := v]> (i_slots i);
                                    i_dict := i_dict i |}]> σ)
           | _ =>
               match i_dict i with
               | Some d =>
                   (Return (),
                    <[h := OInstance {| i_class := i_class i;
                                        i_slots := i_slots i;
                                        i_dict := Some (<[name := v]> d) |}]> σ)
               | None => (Raise AttributeError, σ)
               end
           end
       | _ => (Raise TypeError, σ)
       end.

(** ** The module *)

Definition DELEGATE_MEMBERS_FIELD : string := "___delegate_members___".
Definition DELEGATE_TYPES_FIELD : string := "___delegate_type_mapping___".

(** Modelled from the spec: [containers.EMPTY_SEQUENCE] is not among the
    sources. A ledger starts with no bindings, and the value is unpacked
    into a tuple, so it is the empty tuple. *)
Definition EMPTY_SEQUENCE : value := VTuple [].

Definition issubclass (σ : heap) (cls base : loc) : outcome bool :=
  match σ !! cls, σ !! base with
  | Some (OClass _), Some (OClass _) => Return (bool_decide (base ∈ mro σ cls))
  | _, _ => Raise TypeError
  end.

(** Modelled from the spec: [assertions.assert_subclasses] is not among the
    sources. A host that is not a subclass of the delegate type fails with a
    [ConfigurationError]. *)
Definition assert_subclasses (cls base : loc) : M unit :=
  let! ok := read (λ σ, issubclass σ cls base) in
  if ok then ret () else throw ConfigurationError.

Definition isfunction (v : value) : bool :=
  match v with
  | VFunction _ => true
  | _ => false
  end.

Definition ismethod (v : value) : bool :=
  match v with
  | VMethod _ => true
  | _ => false
  end.

Definition _SPECIAL_ATTRS_TO_IGNORE : gset string := {["_abc_impl"]}.

Definition _should_ignore_attribute_for_field (name : string) (v : value) : bool :=
  isfunction v
  || ismethod v
  || String.prefix "__" name
  || bool_decide (name ∈ _SPECIAL_ATTRS_TO_IGNORE).

(** Iterating a value: tuple items, set elements, dict keys, the characters
    of a string. Anything else is not iterable. *)
Definition iter (v : value) : outcome (list value) :=
  match v with
  | VTuple items => Return items
  | VFrozenset names => Return (VStr <$> elements names)
  | VDict items => Return ((λ kv, VStr kv.1) <$> items)
  | VStr s => Return ((λ c, VStr (String c EmptyString)) <$> list_ascii_of_string s)
  | _ => Raise TypeError
  end.

(** The strings among the elements of a set, as a set of names; see
    [annotation_fields] for an element that is not a string. *)
Fixpoint names_of (vs : list value) : outcome (gset string) :=
  match vs with
  | [] => Return ∅
  | VStr s :: vs' => do names <- names_of vs'; Return ({[s]} ∪ names)
  | _ :: _ => Raise TypeError
  end.

(** [{k for k, v in delegate_type.__dict__.items()
       if not _should_ignore_attribute_for_field(k, v)}] *)
Definition dict_fields (d : gmap string value) : gset string :=
  dom (filter (λ kv, _should_ignore_attribute_for_field kv.1 kv.2 = false) d).

(** [{*getattr(delegate_type, "__annotations__", containers.EMPTY_SEQUENCE)}].
    The read is an ordinary [getattr]: it finds the annotations of the class
    or, when it has none of its own, of the nearest ancestor that has.
    The elements of the set become attribute names in the loop. An element
    that is not a string cannot: [setattr] raises [TypeError] when the loop
    reaches it, after the names that the set yielded before it have been
    installed. Which names those are depends on the iteration order of the
    set, which Python leaves open; the model takes the order that yields
    such an element first, so that this failure finds the host as it was.
    No property below rests on that choice: what is stated about a failed
    application either assumes that the names were classified, or concerns
    a failure of the iteration itself, or does not speak of the host. *)
Definition annotation_fields (σ : heap) (delegate_type : loc) : outcome (gset string) :=
  do annotations <- class_getattr_default σ delegate_type "__annotations__" EMPTY_SEQUENCE;
  do keys <- iter annotations;
  names_of keys.

(** The names that [delegate_to] forwards: lines 91 to 93 of the decorator. *)
Definition targets (σ : heap) (delegate_type : loc) : outcome (gset string) :=
  match class_dict σ delegate_type with
  | Some d =>
      do annotation_fields <- annotation_fields σ delegate_type;
      Return (dict_fields d ∪ annotation_fields)
  | None => Raise TypeError
  end.

Definition class_name (σ : heap) (cls : loc) : outcome string :=
  match σ !! cls with
  | Some (OClass c) => Return (c_name c)
  | _ => Raise TypeError
  end.

(** The body of [for name in targets]: the accessor is built, given its
    docstring, and stored on the class. It enters the heap once it has its
    docstring; nothing can observe it before. *)
Definition install (delegate_type : loc) (magic_field : string) (cls : loc)
    (name : string) : M unit :=
  let delegate := DelegatedProperty__init__ magic_field name in
  let! type_name := read (λ σ, class_name σ delegate_type) in
  let delegate :=
    {| magic_field := delegate.(Delegate.magic_field);
       delegated_member_name := delegate.(Delegate.delegated_member_name);
       doc := Some ("See :attr:`" +:+ type_name +:+ "." +:+ name +:+ "`.") |} in
  let! delegate := alloc (OProperty delegate) in
  type_setattr cls name (VRef delegate).

(** The loop, over the names in the order in which the set yields them. *)
Fixpoint install_all (delegate_type : loc) (magic_field : string) (cls : loc)
    (names : list string) (delegated_members : gset string) : M (gset string) :=
  match names with
  | [] => ret delegated_members
  | name :: names' =>
      install delegate_type magic_field cls name ;;
      install_all delegate_type magic_field cls names' ({[name]} ∪ delegated_members)
  end.

(** The right operand of [delegated_members |= ...] has to be a set. *)
Definition as_set (v : value) : outcome (gset string) :=
  match v with
  | VFrozenset names => Return names
  | _ => Raise TypeError
  end.

(** [delegate_to(delegate_type, magic_field)] applied to [cls]. *)
Definition decorator (delegate_type : loc) (magic_field : string) (cls : loc) : M loc :=
  assert_subclasses cls delegate_type ;;
  let delegated_members : gset string := ∅ in
  let! delegated_types :=
    read (λ σ, class_getattr_default σ cls DELEGATE_TYPES_FIELD EMPTY_SEQUENCE) in
  let! targets := read (λ σ, targets σ delegate_type) in
  let! delegated_members :=
    install_all delegate_type magic_field cls (elements targets) delegated_members in
  let! inherited :=
    read (λ σ, do members <- class_getattr_default σ cls DELEGATE_MEMBERS_FIELD (VFrozenset ∅);
               as_set members) in
  let delegated_members := delegated_members ∪ inherited in
  type_setattr cls DELEGATE_MEMBERS_FIELD (VFrozenset delegated_members) ;;
  let! unpacked := read (λ _, iter delegated_types) in
  type_setattr cls DELEGATE_TYPES_FIELD
    (VTuple (unpacked ++ [VTuple [VStr magic_field; VRef delegate_type]])) ;;
  ret cls.

Definition delegate_to (delegate_type : loc) (magic_field : string) : loc → M loc :=
  decorator delegate_type magic_field.

(** ** The ledger, as introspection reads it *)

(** The forwarded names visible on a class: the read of line 102. *)
Definition forwarded_names (σ : heap) (cls : loc) : outcome (gset string) :=
  do members <- class_getattr_default σ cls DELEGATE_MEMBERS_FIELD (VFrozenset ∅);
  as_set members.

(** The bindings visible on a class: the read of line 84, unpacked. *)
Definition bindings (σ : heap) (cls : loc) : outcome (list value) :=
  do delegated_types <- class_getattr_default σ cls DELEGATE_TYPES_FIELD EMPTY_SEQUENCE;
  iter delegated_types.

Definition binding (magic_field : string) (delegate_type : loc) : value :=
  VTuple [VStr magic_field; VRef delegate_type].

(** [σ'] differs from [σ] at most in the object at [cls] and in objects
    that are new and are not classes. *)
Definition preserves (cls : loc) (σ σ' : heap) : Prop :=
  (∀ l, l ≠ cls → is_Some (σ !! l) → σ' !! l = σ !! l)
  ∧ (∀ l, class_dict σ l = None → class_dict σ' l = None).

(** [l] holds an accessor with the given field and member name. *)
Definition is_accessor (σ : heap) (l : loc) (f m : string) : Prop :=
  ∃ d, σ !! l = Some (OProperty {| magic_field := f; delegated_member_name := m; doc := d |}).

(** A step that writes to [cls] and to new accessor objects only, whether
    it returns or raises. *)
Definition frames (cls : loc) {A} (m : M A) : Prop :=
  ∀ σ r σ', m σ = (r, σ') → preserves cls σ σ'.

(** What the loop leaves behind after installing the names [T] on [cls]:
    each of them is bound in the class [__dict__] to a new accessor for the
    field [f], every other entry is as before. *)
Record installed (f : string) (cls : loc) (T : gset string) (σ σ' : heap) : Prop := {
  inst_preserves : preserves cls σ σ';
  inst_class : ∃ c c',
    σ !! cls = Some (OClass c) ∧ σ' !! cls = Some (OClass c')
    ∧ c_name c' = c_name c ∧ c_ancestors c' = c_ancestors c
    ∧ (∀ k, k ∉ T → c_dict c' !! k = c_dict c !! k)
    ∧ (∀ k, k ∈ T → ∃ p, c_dict c' !! k = Some (VRef p) ∧ is_accessor σ' p f k ∧ σ !! p = None)
}.

(** [applied D f H T inh prior σ σ']: the decorator for [D] and [f] ran to
    completion on [H] from [σ] to [σ'], where [T] are the forwarded names of
    [D], and [inh] and [prior] the forwarded names and bindings that were
    visible on [H] before. *)
Record applied (D : loc) (f : string) (H : loc) (T inh : gset string)
    (prior : list value) (σ σ' : heap) : Prop := {
  ap_subclass : issubclass σ H D = Return true;
  ap_targets : targets σ D = Return T;
  ap_forwarded : forwarded_names σ H = Return inh;
  ap_bindings : bindings σ H = Return prior;
  ap_members_not_target : DELEGATE_MEMBERS_FIELD ∉ T;
  ap_preserves : preserves H σ σ';
  ap_class : ∃ c c',
    σ !! H = Some (OClass c) ∧ σ' !! H = Some (OClass c')
    ∧ c_name c' = c_name c ∧ c_ancestors c' = c_ancestors c
    ∧ c_dict c' !! DELEGATE_TYPES_FIELD = Some (VTuple (prior ++ [binding f D]))
    ∧ c_dict c' !! DELEGATE_MEMBERS_FIELD = Some (VFrozenset (T ∪ inh))
    ∧ (∀ k, k ∈ T → k ≠ DELEGATE_TYPES_FIELD →
         ∃ p, c_dict c' !! k = Some (VRef p) ∧ is_accessor σ' p f k ∧ σ !! p = None)
    ∧ (∀ k, k ∉ T → k ≠ DELEGATE_TYPES_FIELD → k ≠ DELEGATE_MEMBERS_FIELD →
         c_dict c' !! k = c_dict c !! k)
}.

(** ** A small program

    [User] is a delegate type with two annotated fields and a method;
    [Member] derives from it and keeps a [User] in its field [user], as the
    library's own [Member] does. [Presence] is a second, unrelated delegate
    type, [Callbacks] a type whose annotated member holds a function.
    [SlottedMember] has no instance [__dict__]. *)
Module Example.

Definition User : loc := 1%positive.
Definition Member : loc := 2%positive.
Definition Presence : loc := 3%positive.
Definition Callbacks : loc := 4%positive.
Definition SlottedMember : loc := 5%positive.
Definition RichMember : loc := 6%positive.
Definition a_user : loc := 10%positive.
Definition a_member : loc := 11%positive.
Definition a_shadowing_member : loc := 12%positive.
Definition a_slotted_member : loc := 13%positive.

Definition world : heap :=
  {[ User := OClass
       {| c_name := "User"; c_ancestors := [];
          c_dict := {[ "__annotations__" := VDict [("id", VNone); ("name", VNone)];
                       "mention" := VFunction "User.mention" ]} |};
     Member := OClass
       {| c_name := "Member"; c_ancestors := [User];
          c_dict := {[ "__annotations__" := VDict [("user", VNone)] ]} |};
     Presence := OClass
       {| c_name := "Presence"; c_ancestors := [];
          c_dict := {[ "status" := VStr "offline" ]} |};
     Callbacks := OClass
       {| c_name := "Callbacks"; c_ancestors := [];
          c_dict := {[ "__annotations__" := VDict [("on_ready", VNone)];
                       "on_ready" := VFunction "default_on_ready" ]} |};
     SlottedMember := OClass
       {| c_name := "SlottedMember"; c_ancestors := [User];
          c_dict := {[ "user" := VMemberDescriptor "user" ]} |};
     RichMember := OClass
       {| c_name := "RichMember"; c_ancestors := [Member; User; Presence; Callbacks];
          c_dict := ∅ |};
     a_user := OInstance
       {| i_class := User; i_slots := ∅;
          i_dict := Some {[ "id" := VInt 7; "name" := VStr "nekokatt" ]} |};
     a_member := OInstance
       {| i_class := Member; i_slots := ∅;
          i_dict := Some {[ "user" := VRef a_user ]} |};
     a_shadowing_member := OInstance
       {| i_class := Member; i_slots := ∅;
          i_dict := Some {[ "user" := VRef a_user; "id" := VInt 42 ]} |};
     a_slotted_member := OInstance
       {| i_class := SlottedMember; i_slots := {[ "user" := VRef a_user ]};
          i_dict := None |} ]}.

(** [Member] decorated with [@delegate_to(User, "user")]. *)
Definition decorated : heap := (delegate_to User "user" Member world).2.

(** [SlottedMember] decorated likewise. *)
Definition decorated_slotted : heap := (delegate_to User "user" SlottedMember world).2.

(** [RichMember], a subclass of the decorated [Member], decorated with
    [@delegate_to(Presence, "presence")]. *)
Definition layered : heap := (delegate_to Presence "presence" RichMember decorated).2.

(** ... and then with [@delegate_to(Callbacks, "callbacks")]. *)
Definition layered_twice : heap := (delegate_to Callbacks "callbacks" RichMember layered).2.

(** [Member] decorated a second time with [@delegate_to(User, "user")]. *)
Definition redecorated : heap := (delegate_to User "user" Member decorated).2.

End Example.

(** The docstring that the loop gives to the accessor of [name]. *)
Definition accessor_doc (type_name name : string) : string :=
  "See :attr:`" +:+ type_name +:+ "." +:+ name +:+ "`.".

(** Every object that [σ'] has and [σ] had not is an accessor for the field
    [f] that carries the docstring of its member. *)
Definition documented (f type_name : string) (σ σ' : heap) : Prop :=
  ∀ p o, σ !! p = None → σ' !! p = Some o →
    ∃ m, o = OProperty {| magic_field := f; delegated_member_name := m;
                          doc := Some (accessor_doc type_name m) |}.

(** ** Further programs

    [Player] delegates to [Account] through its field [account]; [Seat]
    delegates to [Player] through its field [player], and [Captain] is a
    plain subclass of [Player]. *)
Module Chain.

Definition Account : loc := 1%positive.
Definition Player : loc := 2%positive.
Definition Seat : loc := 3%positive.
Definition Captain : loc := 4%positive.
Definition an_account : loc := 10%positive.
Definition a_player : loc := 11%positive.
Definition a_seat : loc := 12%positive.
Definition a_captain : loc := 13%positive.
Definition another_account : loc := 14%positive.
Definition an_empty_player : loc := 15%positive.

Definition start : heap :=
  {[ Account := OClass
       {| c_name := "Account"; c_ancestors := [];
          c_dict := {[ "__annotations__" := VDict [("id", VNone)];
                       "rank" := VInt 0 ]} |};
     Player := OClass
       {| c_name := "Player"; c_ancestors := [Account];
          c_dict := {[ "__annotations__" := VDict [("account", VNone)] ]} |};
     Seat := OClass
       {| c_name := "Seat"; c_ancestors := [Player; Account];
          c_dict := {[ "__annotations__" := VDict [("player", VNone)] ]} |};
     Captain := OClass
       {| c_name := "Captain"; c_ancestors := [Player; Account];
          c_dict := {[ "salute" := VFunction "Captain.salute" ]} |};
     an_account := OInstance
       {| i_class := Account; i_slots := ∅;
          i_dict := Some {[ "id" := VInt 7; "rank" := VInt 3 ]} |};
     another_account := OInstance
       {| i_class := Account; i_slots := ∅;
          i_dict := Some {[ "id" := VInt 8; "rank" := VInt 1 ]} |};
     a_player := OInstance
       {| i_class := Player; i_slots := ∅;
          i_dict := Some {[ "account" := VRef an_account ]} |};
     a_seat := OInstance
       {| i_class := Seat; i_slots := ∅;
          i_dict := Some {[ "player" := VRef a_player ]} |};
     a_captain := OInstance
       {| i_class := Captain; i_slots := ∅;
          i_dict := Some {[ "account" := VRef an_account ]} |};
     an_empty_player := OInstance
       {| i_class := Player; i_slots := ∅; i_dict := Some ∅ |} ]}.

Definition with_player : heap := (delegate_to Account "account" Player start).2.
Definition with_seat : heap := (delegate_to Player "player" Seat with_player).2.
Definition with_seat_twice : heap := (delegate_to Account "account" Seat with_seat).2.

End Chain.

(** Classes on which the decorator fails or misbehaves: [Broken] has
    annotations that cannot be iterated; the hosts [StaleMembers] and
    [StaleBindings] carry ledger fields of the wrong kind; [Node] has a
    member called like the field that [Linked] keeps its delegate in. *)
Module Odd.

Definition Broken : loc := 1%positive.
Definition BrokenHost : loc := 2%positive.
Definition Plain : loc := 3%positive.
Definition StaleMembers : loc := 4%positive.
Definition StaleBindings : loc := 5%positive.
Definition Node : loc := 6%positive.
Definition Linked : loc := 7%positive.
Definition Slotted : loc := 8%positive.
Definition SlottedHost : loc := 9%positive.
Definition a_linked : loc := 20%positive.
Definition a_slotted : loc := 21%positive.
Definition a_slotted_host : loc := 22%positive.

Definition start : heap :=
  {[ Broken := OClass
       {| c_name := "Broken"; c_ancestors := [];
          c_dict := {[ "__annotations__" := VInt 0 ]} |};
     BrokenHost := OClass
       {| c_name := "BrokenHost"; c_ancestors := [Broken]; c_dict := ∅ |};
     Plain := OClass
       {| c_name := "Plain"; c_ancestors := [];
          c_dict := {[ "x" := VInt 1 ]} |};
     StaleMembers := OClass
       {| c_name := "StaleMembers"; c_ancestors := [Plain];
          c_dict := {[ DELEGATE_MEMBERS_FIELD := VTuple [] ]} |};
     StaleBindings := OClass
       {| c_name := "StaleBindings"; c_ancestors := [Plain];
          c_dict := {[ DELEGATE_TYPES_FIELD := VInt 0 ]} |};
     Node := OClass
       {| c_name := "Node"; c_ancestors := [];
          c_dict := {[ "__annotations__" := VDict [("next", VNone); ("value", VNone)] ]} |};
     Linked := OClass
       {| c_name := "Linked"; c_ancestors := [Node];
          c_dict := {[ "next" := VMemberDescriptor "next" ]} |};
     Slotted := OClass
       {| c_name := "Slotted"; c_ancestors := [];
          c_dict := {[ "value" := VMemberDescriptor "value" ]} |};
     SlottedHost := OClass
       {| c_name := "SlottedHost"; c_ancestors := [Slotted];
          c_dict := {[ "inner" := VMemberDescriptor "inner" ]} |};
     a_linked := OInstance
       {| i_class := Linked; i_slots := {[ "next" := VNone ]}; i_dict := None |};
     a_slotted := OInstance
       {| i_class := Slotted; i_slots := {[ "value" := VInt 5 ]}; i_dict := None |};
     a_slotted_host := OInstance
       {| i_class := SlottedHost;
          i_slots := {[ "inner" := VRef a_slotted; "value" := VInt 0 ]};
          i_dict := None |} ]}.

Definition linked : heap := (delegate_to Node "next" Linked start).2.
Definition slotted : heap := (delegate_to Slotted "inner" SlottedHost start).2.

End Odd.

(** A delegate type whose annotations name an attribute that the metatype
    keeps for itself. *)
Module Reserved.

Definition Shape : loc := 1%positive.
Definition Drawing : loc := 2%positive.

Definition start : heap :=
  {[ Shape := OClass
       {| c_name := "Shape"; c_ancestors := [];
          c_dict := {[ "__annotations__" := VDict [("__mro__", VNone); ("area", VNone)] ]} |};
     Drawing := OClass
       {| c_name := "Drawing"; c_ancestors := [Shape];
          c_dict := {[ "title" := VStr "untitled" ]} |} ]}.

End Reserved.

(** * Properties *)

Section lookup.
Implicit Types (σ : heap) (l cls : loc) (name : string).

Lemma class_dict_Some σ l d :
  class_dict σ l = Some d ↔ ∃ c, σ !! l = Some (OClass c) ∧ c_dict c = d.
Proof.
  unfold class_dict. split.
  - destruct (σ !! l) as [[c| |]|]; intros [= <-]; eauto.
  - intros (c & -> & <-). done.
Qed.

Lemma descr_get_no_instance g σ attr owner :
  descr_get g σ attr VNone owner = Return attr.
Proof.
  destruct attr; simpl; try done.
  destruct (σ !! l) as [[| |]|]; done.
Qed.

(** A read on a class returns what the lookup along the MRO finds. *)
Lemma getattr_class n σ cls c name :
  σ !! cls = Some (OClass c) →
  getattr (S n) σ (VRef cls) name =
    from_option Return (Raise AttributeError) (type_lookup σ cls name).
Proof.
  intros Hc. simpl. unfold getattr_at_depth. rewrite Hc.
  destruct (type_lookup σ cls name); simpl; [apply descr_get_no_instance | done].
Qed.

Lemma getattr_class_depth n σ cls c name :
  σ !! cls = Some (OClass c) →
  getattr (S n) σ (VRef cls) name = class_getattr σ cls name.
Proof.
  intros Hc. unfold class_getattr. by rewrite !(getattr_class _ _ _ c).
Qed.

(** More depth never changes a read that did not run out of depth. *)
Lemma getattr_mono n : ∀ σ o name r,
  getattr n σ o name = r → r ≠ Raise RecursionError →
  getattr (S n) σ o name = r.
Proof.
  induction n as [|n IH]; intros σ o name r Hrun Hr; [by subst|].
  assert (∀ attr inst owner r',
            descr_get (getattr n σ) σ attr inst owner = r' → r' ≠ Raise RecursionError →
            descr_get (getattr (S n) σ) σ attr inst owner = r') as Hdescr.
  { intros attr inst owner r' Hget Hr'. unfold descr_get in *.
    destruct attr; try done.
    destruct (σ !! l) as [[| |p]|]; try done.
    unfold DelegatedProperty__get__ in *. destruct (is_not_None inst); [|done].
    destruct (getattr n σ inst (magic_field p)) as [d|e] eqn:Hfield.
    - rewrite (IH _ _ _ _ Hfield ltac:(discriminate)). simpl in *. by apply IH.
    - simpl in Hget. rewrite (IH _ _ _ _ Hfield); [done|congruence]. }
  change (getattr_at_depth (getattr n σ) σ o name = r) in Hrun.
  change (getattr_at_depth (getattr (S n) σ) σ o name = r).
  unfold getattr_at_depth in *.
  destruct o; try done.
  destruct (σ !! l) as [[c|i|p]|]; [| |done..].
  - destruct (type_lookup σ l name); [by apply Hdescr|done].
  - destruct (type_lookup σ (i_class i) name) as [attr|]; [|done].
    destruct attr; try done;
      (destruct (i_dict i ≫= (λ d, d !! name)); [done|by apply Hdescr]).
Qed.

Lemma type_lookup_own σ cls c name v :
  σ !! cls = Some (OClass c) →
  c_dict c !! name = Some v →
  type_lookup σ cls name = Some v.
Proof.
  intros Hc Hv. unfold type_lookup, mro. rewrite Hc. simpl.
  unfold class_dict. rewrite Hc. simpl. by rewrite Hv.
Qed.

(** The lookup depends on the [__dict__]s along the list only. *)
Lemma lookup_along_ext σ σ' ls name :
  (∀ l, l ∈ ls → class_dict σ' l ≫= (λ d, d !! name) = class_dict σ l ≫= (λ d, d !! name)) →
  lookup_along σ' ls name = lookup_along σ ls name.
Proof.
  induction ls as [|l ls IH]; intros Hagree; [done|]. simpl.
  rewrite (Hagree l) by left.
  rewrite IH; [done|]. intros l' Hl'. apply Hagree. by right.
Qed.
End lookup.

Section preserves.
Implicit Types (σ : heap) (l cls : loc).

Lemma preserves_refl cls σ : preserves cls σ σ.
Proof. by split. Qed.

Lemma preserves_trans cls σ1 σ2 σ3 :
  preserves cls σ1 σ2 → preserves cls σ2 σ3 → preserves cls σ1 σ3.
Proof.
  intros [F1 N1] [F2 N2]. split.
  - intros l Hl Hs. rewrite F2; [by apply F1|done|]. by rewrite F1.
  - intros l Hl. by apply N2, N1.
Qed.

Lemma preserves_class_dict cls σ σ' l :
  preserves cls σ σ' → l ≠ cls → class_dict σ' l = class_dict σ l.
Proof.
  intros [F N] Hl. destruct (σ !! l) as [o|] eqn:Ho.
  - unfold class_dict. rewrite F, Ho; eauto.
  - rewrite N; unfold class_dict; by rewrite Ho.
Qed.

Lemma preserves_alloc cls σ o :
  (∀ c, o ≠ OClass c) →
  preserves cls σ (<[fresh (dom σ) := o]> σ).
Proof.
  intros Ho. pose proof (is_fresh (dom σ)) as Hfresh. split.
  - intros l _ Hs. apply lookup_insert_ne. intros <-.
    by apply Hfresh, elem_of_dom.
  - intros l Hl. unfold class_dict in *.
    destruct (decide (fresh (dom σ) = l)) as [<-|Hne].
    + rewrite lookup_insert_eq. destruct o; naive_solver.
    + by rewrite lookup_insert_ne.
Qed.

Lemma type_setattr_store cls name v σ c :
  intercepted name = false →
  σ !! cls = Some (OClass c) →
  type_setattr cls name v σ =
    (Return (), <[cls := OClass {| c_name := c_name c;
                                   c_ancestors := c_ancestors c;
                                   c_dict := <[name := v]> (c_dict c) |}]> σ).
Proof.
  intros Hname Hc. unfold type_setattr, type_setattr_class. rewrite Hc.
  apply bool_decide_eq_false, not_elem_of_union in Hname as [Hro Hty].
  by rewrite !bool_decide_eq_false_2.
Qed.

Lemma type_setattr_rejects_ref cls name p σ c :
  intercepted name = true →
  σ !! cls = Some (OClass c) →
  ∃ e, type_setattr cls name (VRef p) σ = (Raise e, σ)
       ∧ (e = AttributeError ∨ e = TypeError).
Proof.
  intros Hname Hc. unfold type_setattr, type_setattr_class. rewrite Hc.
  apply bool_decide_eq_true, elem_of_union in Hname.
  destruct (bool_decide (name ∈ readonly_type_attributes)) eqn:Hro; [by eauto|].
  destruct Hname as [Hin|Hin]; [by apply bool_decide_eq_false in Hro|].
  rewrite bool_decide_eq_true_2 by done. eauto.
Qed.

(** A name without the leading double underscore is stored. *)
Lemma ordinary_not_intercepted name :
  String.prefix "__" name = false → intercepted name = false.
Proof.
  intros Hname. apply bool_decide_eq_false. intros Hin.
  unfold readonly_type_attributes, typed_type_attributes in Hin.
  repeat (apply elem_of_union in Hin as [Hin|Hin]);
    apply elem_of_singleton in Hin; subst name; discriminate.
Qed.

Lemma ledger_not_intercepted :
  intercepted DELEGATE_MEMBERS_FIELD = false ∧ intercepted DELEGATE_TYPES_FIELD = false.
Proof. split; vm_compute; reflexivity. Qed.

Lemma ordinary_names_stored T m :
  ordinary_names T → m ∈ T → intercepted m = false.
Proof. intros HT Hm. by apply ordinary_not_intercepted, HT. Qed.

(** The two ledger fields start with three underscores. *)
Lemma ordinary_names_ledger T :
  ordinary_names T → (DELEGATE_MEMBERS_FIELD ∉ T) ∧ (DELEGATE_TYPES_FIELD ∉ T).
Proof. intros HT. split; intros Hin; apply HT in Hin; discriminate. Qed.

Lemma preserves_type_setattr cls name v σ r σ' :
  type_setattr cls name v σ = (r, σ') → preserves cls σ σ'.
Proof.
  unfold type_setattr. destruct (σ !! cls) as [[c| |]|] eqn:Hc;
    [destruct (type_setattr_class name v c) as [c'|e]|..];
    intros [= <- <-]; try apply preserves_refl.
  split.
  - intros l Hl _. by apply lookup_insert_ne.
  - intros l Hl. unfold class_dict in *.
    destruct (decide (cls = l)) as [<-|Hne].
    + by rewrite Hc in Hl.
    + by rewrite lookup_insert_ne.
Qed.
End preserves.

(** Every step of the decorator writes to the decorated class and to new
    accessor objects only, whether it returns or raises. *)
Section frames.
Context (cls : loc).
Local Abbreviation frames := (Delegate.frames cls).

Lemma frames_ret {A} (a : A) : frames (ret a).
Proof. intros σ r σ' [= <- <-]. apply preserves_refl. Qed.

Lemma frames_throw {A} e : frames (@throw A e).
Proof. intros σ r σ' [= <- <-]. apply preserves_refl. Qed.

Lemma frames_read {A} (f : heap → outcome A) : frames (read f).
Proof. intros σ r σ' [= <- <-]. apply preserves_refl. Qed.

Lemma frames_bind {A B} (m : M A) (k : A → M B) :
  frames m → (∀ a, frames (k a)) → frames (bind m k).
Proof.
  intros Hm Hk σ r σ'. unfold bind.
  destruct (m σ) as [[a|e] σ1] eqn:Hrun.
  - intros Hrun'. eapply preserves_trans; [by eapply Hm | by eapply Hk].
  - intros [= <- <-]. by eapply Hm.
Qed.

Lemma frames_alloc_property p : frames (alloc (OProperty p)).
Proof. intros σ r σ' [= <- <-]. by apply preserves_alloc. Qed.

Lemma frames_type_setattr name v : frames (type_setattr cls name v).
Proof. intros σ r σ'. apply preserves_type_setattr. Qed.

Lemma frames_install D f name : frames (install D f cls name).
Proof.
  unfold install. apply frames_bind; [apply frames_read|]. intros nm.
  apply frames_bind; [apply frames_alloc_property|]. intros l.
  apply frames_type_setattr.
Qed.

Lemma frames_install_all D f names acc : frames (install_all D f cls names acc).
Proof.
  revert acc. induction names as [|name names IH]; intros acc; simpl.
  - apply frames_ret.
  - apply frames_bind; [apply frames_install | intros _; apply IH].
Qed.

Lemma frames_decorator D f : frames (decorator D f cls).
Proof.
  unfold decorator, assert_subclasses.
  repeat first
    [ apply frames_ret | apply frames_throw | apply frames_read
    | apply frames_type_setattr | apply frames_install_all
    | apply frames_bind; [|intros ?]
    | match goal with |- frames (if ?b then _ else _) => destruct b end ].
Qed.
End frames.

(** ** The installation loop *)

Section install.
Context (D : loc) (f : string) (cls : loc).
Implicit Types (σ : heap) (T : gset string).

Lemma installed_empty σ c : σ !! cls = Some (OClass c) → installed f cls ∅ σ σ.
Proof.
  intros Hc. split; [apply preserves_refl|].
  exists c, c. repeat split; try done; set_solver.
Qed.

Lemma preserves_None σ σ' l :
  preserves cls σ σ' → l ≠ cls → σ' !! l = None → σ !! l = None.
Proof.
  intros [F N] Hne Hl. destruct (σ !! l) as [o|] eqn:Ho; [|done].
  rewrite F in Hl; [congruence|done|by rewrite Ho].
Qed.

Lemma installed_trans T1 T2 σ1 σ2 σ3 :
  installed f cls T1 σ1 σ2 → installed f cls T2 σ2 σ3 →
  installed f cls (T1 ∪ T2) σ1 σ3.
Proof.
  intros [P1 (c1 & c2 & Hc1 & Hc2 & Hn1 & Ha1 & Hout1 & Hin1)]
         [P2 (c2' & c3 & Hc2' & Hc3 & Hn2 & Ha2 & Hout2 & Hin2)].
  assert (c2' = c2) as -> by congruence.
  split; [by eapply preserves_trans|].
  exists c1, c3. repeat split; try congruence.
  - intros k Hk. rewrite Hout2, Hout1; set_solver.
  - intros k Hk. destruct (decide (k ∈ T2)) as [Hk2|Hk2].
    + destruct (Hin2 k Hk2) as (p & Hp & Hacc & Hnew).
      exists p. split; [done|]. split; [done|].
      eapply preserves_None; [done| |done]. intros ->. congruence.
    + assert (k ∈ T1) as Hk1 by (clear -Hk Hk2; set_solver).
      destruct (Hin1 k Hk1) as (p & Hp & [d Hacc] & Hnew).
      exists p. split; [|split; [|done]].
      * by rewrite Hout2.
      * exists d. destruct P2 as [F2 _]. rewrite F2; [done| |by rewrite Hacc].
        intros ->. congruence.
Qed.

Lemma install_spec name σ c nm :
  intercepted name = false →
  σ !! cls = Some (OClass c) →
  class_name σ D = Return nm →
  ∃ σ', install D f cls name σ = (Return (), σ')
        ∧ installed f cls {[name]} σ σ'
        ∧ class_name σ' D = Return nm.
Proof.
  intros Hname Hc Hnm. unfold install, bind, read, alloc. rewrite Hnm. simpl.
  pose proof (is_fresh (dom σ)) as Hfresh.
  set (p := fresh (dom σ)) in *.
  assert (σ !! p = None) as Hp. { apply not_elem_of_dom. exact Hfresh. }
  assert (p ≠ cls) as Hne by (intros ->; congruence).
  match goal with
  | |- context [type_setattr cls name (VRef p) (<[p := ?o]> σ)] =>
      pose proof (type_setattr_store cls name (VRef p) (<[p := o]> σ) c Hname) as Hset;
      assert (preserves cls σ (<[p := o]> σ)) as Hpres by (by apply preserves_alloc)
  end.
  rewrite lookup_insert_ne in Hset by done. specialize (Hset Hc).
  rewrite Hset.
  eexists. split; [done|]. split; [split|].
  - eapply preserves_trans; [exact Hpres|].
    eapply (preserves_type_setattr cls name (VRef p)). exact Hset.
  - eexists c, _. rewrite lookup_insert_eq. repeat split; try done.
    + intros k Hk. simpl. apply lookup_insert_ne. set_solver.
    + intros k ->%elem_of_singleton. exists p. simpl.
      rewrite lookup_insert_eq. repeat split; [|done].
      eexists. rewrite lookup_insert_ne, lookup_insert_eq by done. done.
  - unfold class_name in *. destruct (decide (D = cls)) as [->|HD].
    + rewrite lookup_insert_eq. rewrite Hc in Hnm. done.
    + rewrite lookup_insert_ne by done.
      rewrite lookup_insert_ne; [done|]. intros <-. by rewrite Hp in Hnm.
Qed.

(** A name that the metatype intercepts stops the loop: the accessor has been
    built, the class is as it was. *)
Lemma install_rejected name σ c nm :
  intercepted name = true →
  σ !! cls = Some (OClass c) →
  class_name σ D = Return nm →
  ∃ e σ', install D f cls name σ = (Raise e, σ')
          ∧ (e = AttributeError ∨ e = TypeError)
          ∧ σ' !! cls = Some (OClass c).
Proof.
  intros Hname Hc Hnm. unfold install, bind, read, alloc. rewrite Hnm. simpl.
  pose proof (is_fresh (dom σ)) as Hfresh.
  set (p := fresh (dom σ)) in *.
  assert (σ !! p = None) as Hp. { apply not_elem_of_dom. exact Hfresh. }
  assert (p ≠ cls) as Hne by (intros ->; congruence).
  match goal with
  | |- context [type_setattr cls name (VRef p) (<[p := ?o]> σ)] =>
      destruct (type_setattr_rejects_ref cls name p (<[p := o]> σ) c Hname)
        as (e & Hset & He); [by rewrite lookup_insert_ne|]
  end.
  rewrite Hset. exists e. eexists. split; [done|]. split; [done|].
  by rewrite lookup_insert_ne.
Qed.

Lemma install_all_spec names : ∀ acc σ c nm,
  Forall (λ name, intercepted name = false) names →
  σ !! cls = Some (OClass c) →
  class_name σ D = Return nm →
  ∃ σ', install_all D f cls names acc σ = (Return (list_to_set names ∪ acc), σ')
        ∧ installed f cls (list_to_set names) σ σ'.
Proof.
  induction names as [|name names IH]; intros acc σ c nm Hnames Hc Hnm; simpl.
  - exists σ. split; [|by eapply installed_empty].
    unfold ret. do 2 f_equal. set_solver.
  - apply Forall_cons in Hnames as [Hname Hnames].
    destruct (install_spec name σ c nm Hname Hc Hnm) as (σ1 & Hrun & Hinst & Hnm1).
    destruct (inst_class _ _ _ _ _ Hinst) as (c0 & c1 & _ & Hc1 & _).
    destruct (IH ({[name]} ∪ acc) σ1 c1 nm Hnames Hc1 Hnm1) as (σ' & Hrun' & Hinst').
    exists σ'. split; [|by eapply installed_trans].
    unfold bind. rewrite Hrun, Hrun'. do 2 f_equal. set_solver.
Qed.

(** The loop fails only where the metatype refuses a name. *)
Lemma install_all_raises names : ∀ acc σ c nm e σ',
  σ !! cls = Some (OClass c) →
  class_name σ D = Return nm →
  install_all D f cls names acc σ = (Raise e, σ') →
  (e = AttributeError ∨ e = TypeError)
  ∧ Exists (λ name, intercepted name = true) names.
Proof.
  induction names as [|name names IH]; intros acc σ c nm e σ' Hc Hnm Hrun;
    [done|].
  simpl in Hrun. unfold bind in Hrun.
  destruct (intercepted name) eqn:Hname.
  - destruct (install_rejected name σ c nm Hname Hc Hnm) as (e1 & σ1 & Hrej & He & _).
    rewrite Hrej in Hrun. injection Hrun as <- _.
    split; [done|]. by apply Exists_cons_hd.
  - destruct (install_spec name σ c nm Hname Hc Hnm) as (σ1 & Hrun1 & Hinst & Hnm1).
    destruct (inst_class _ _ _ _ _ Hinst) as (c0 & c1 & _ & Hc1 & _).
    rewrite Hrun1 in Hrun.
    destruct (IH _ _ _ _ _ _ Hc1 Hnm1 Hrun) as [He Hex].
    split; [done|]. by apply Exists_cons_tl.
Qed.

(** However the loop ends, it has written no entry of the class other
    than those of the names it was given. *)
Lemma install_all_outside names : ∀ acc σ c nm r σ',
  σ !! cls = Some (OClass c) →
  class_name σ D = Return nm →
  install_all D f cls names acc σ = (r, σ') →
  ∃ c', σ' !! cls = Some (OClass c')
        ∧ ∀ k, k ∉ names → c_dict c' !! k = c_dict c !! k.
Proof.
  induction names as [|name names IH]; intros acc σ c nm r σ' Hc Hnm Hrun.
  - injection Hrun as <- <-. eauto.
  - simpl in Hrun. unfold bind in Hrun.
    destruct (intercepted name) eqn:Hname.
    + destruct (install_rejected name σ c nm Hname Hc Hnm) as (e & σ1 & Hrej & _ & Hc1).
      rewrite Hrej in Hrun. injection Hrun as <- <-. eauto.
    + destruct (install_spec name σ c nm Hname Hc Hnm) as (σ1 & Hrun1 & Hinst & Hnm1).
      destruct (inst_class _ _ _ _ _ Hinst) as (c0 & c1 & Hc0 & Hc1 & _ & _ & Hout & _).
      assert (c0 = c) as -> by congruence.
      rewrite Hrun1 in Hrun.
      destruct (IH _ _ _ _ _ _ Hc1 Hnm1 Hrun) as (c' & Hc' & Hkeep).
      exists c'. split; [done|]. intros k Hk.
      apply not_elem_of_cons in Hk as [Hne Hk].
      rewrite Hkeep by done. apply Hout. by apply not_elem_of_singleton.
Qed.

(** The loop comes to its end only when the metatype stores every name. *)
Lemma install_all_Return names : ∀ acc σ c nm r σ',
  σ !! cls = Some (OClass c) →
  class_name σ D = Return nm →
  install_all D f cls names acc σ = (Return r, σ') →
  Forall (λ name, intercepted name = false) names.
Proof.
  induction names as [|name names IH]; intros acc σ c nm r σ' Hc Hnm Hrun;
    [by constructor|].
  simpl in Hrun. unfold bind in Hrun.
  destruct (intercepted name) eqn:Hname.
  - destruct (install_rejected name σ c nm Hname Hc Hnm) as (e & σ1 & Hrej & _).
    by rewrite Hrej in Hrun.
  - destruct (install_spec name σ c nm Hname Hc Hnm) as (σ1 & Hrun1 & Hinst & Hnm1).
    destruct (inst_class _ _ _ _ _ Hinst) as (c0 & c1 & _ & Hc1 & _).
    rewrite Hrun1 in Hrun. constructor; [done|]. by eapply IH.
Qed.

Lemma installed_mro T σ σ' l :
  installed f cls T σ σ' → mro σ' l = mro σ l.
Proof.
  intros [P (c & c' & Hc & Hc' & _ & Ha & _)]. unfold mro.
  destruct (decide (l = cls)) as [->|Hne].
  - rewrite Hc, Hc'. by rewrite Ha.
  - pose proof (preserves_class_dict cls σ σ' l P Hne) as Hd.
    unfold class_dict in Hd. destruct P as [F _].
    destruct (σ !! l) as [o|] eqn:Ho.
    + rewrite F, Ho; eauto.
    + destruct (σ' !! l) as [[| |]|]; done.
Qed.

Lemma installed_class_dict T σ σ' l name :
  installed f cls T σ σ' → name ∉ T →
  class_dict σ' l ≫= (λ d, d !! name) = class_dict σ l ≫= (λ d, d !! name).
Proof.
  intros [P (c & c' & Hc & Hc' & _ & _ & Hout & _)] Hname.
  destruct (decide (l = cls)) as [->|Hne].
  - unfold class_dict. rewrite Hc, Hc'. simpl. by apply Hout.
  - by rewrite (preserves_class_dict cls σ σ' l).
Qed.

(** A name that the loop did not install resolves as before. *)
Lemma installed_type_lookup T σ σ' l name :
  installed f cls T σ σ' → name ∉ T →
  type_lookup σ' l name = type_lookup σ l name.
Proof.
  intros Hinst Hname. unfold type_lookup. rewrite (installed_mro T σ σ') by done.
  apply lookup_along_ext. intros l' _. by eapply installed_class_dict.
Qed.

(** Any name resolves as before, or to one of the new accessors. *)
Lemma installed_lookup_along T σ σ' ls name :
  installed f cls T σ σ' →
  lookup_along σ' ls name = lookup_along σ ls name
  ∨ ∃ p, lookup_along σ' ls name = Some (VRef p) ∧ is_accessor σ' p f name.
Proof.
  intros Hinst. destruct (decide (name ∈ T)) as [Hin|Hout].
  - destruct Hinst as [P (c & c' & Hc & Hc' & _ & _ & _ & Hins)].
    destruct (Hins name Hin) as (p & Hp & Hacc & _).
    induction ls as [|l ls IH]; simpl; [by left|].
    destruct (decide (l = cls)) as [->|Hne].
    + right. exists p. unfold class_dict. rewrite Hc'. simpl. by rewrite Hp.
    + rewrite (preserves_class_dict cls σ σ' l) by done.
      destruct (class_dict σ l ≫= (λ d, d !! name)); [by left|done].
  - left. apply lookup_along_ext. intros l' _. by eapply installed_class_dict.
Qed.

Lemma installed_type_lookup_or T σ σ' l name :
  installed f cls T σ σ' →
  type_lookup σ' l name = type_lookup σ l name
  ∨ ∃ p, type_lookup σ' l name = Some (VRef p) ∧ is_accessor σ' p f name.
Proof.
  intros Hinst. unfold type_lookup. rewrite (installed_mro T σ σ') by done.
  by apply installed_lookup_along with T.
Qed.
End install.

(** ** What a successful application leaves behind *)

Section decorator.
Implicit Types (σ : heap) (D H : loc) (f : string).

Lemma class_getattr_default_class σ cls c name dflt :
  σ !! cls = Some (OClass c) →
  class_getattr_default σ cls name dflt = Return (default dflt (type_lookup σ cls name)).
Proof.
  intros Hc. unfold class_getattr_default, class_getattr.
  rewrite (getattr_class _ _ _ c) by done.
  by destruct (type_lookup σ cls name).
Qed.

Lemma issubclass_true σ H D :
  issubclass σ H D = Return true →
  ∃ c cD, σ !! H = Some (OClass c) ∧ σ !! D = Some (OClass cD) ∧ D ∈ mro σ H.
Proof.
  unfold issubclass.
  destruct (σ !! H) as [[c| |]|] eqn:Hc; try done.
  destruct (σ !! D) as [[cD| |]|] eqn:HD; try done.
  intros [= Hin%bool_decide_eq_true]. eauto.
Qed.

Lemma decorator_Return D f H σ r σ' :
  decorator D f H σ = (Return r, σ') →
  r = H ∧ ∃ T inh prior, applied D f H T inh prior σ σ'.
Proof.
  unfold decorator, assert_subclasses, bind, read. intros Hrun.
  destruct (issubclass σ H D) as [[|]|e] eqn:Hsub; try done.
  destruct (issubclass_true _ _ _ Hsub) as (c & cD & Hc & HD & Hin).
  cbv beta iota delta [ret] in Hrun.
  destruct (class_getattr_default σ H DELEGATE_TYPES_FIELD EMPTY_SEQUENCE)
    as [dt|] eqn:Hdt; [|done].
  destruct (targets σ D) as [T|] eqn:HT; [|done].
  assert (class_name σ D = Return (c_name cD)) as Hnm
    by (by unfold class_name; rewrite HD).
  destruct (install_all D f H (elements T) ∅ σ) as [[r1|e1] σ1] eqn:Hrun1; [|done].
  pose proof (install_all_Return D f H _ _ _ c _ _ _ Hc Hnm Hrun1) as Hnames.
  destruct (install_all_spec D f H (elements T) ∅ σ c (c_name cD) Hnames Hc Hnm)
    as (σ1' & Hrun1' & Hinst).
  rewrite Hrun1 in Hrun1'. injection Hrun1' as -> <-. clear Hrun1.
  rewrite list_to_set_elements_L in Hinst.
  replace (list_to_set (elements T) ∪ ∅) with T in Hrun
    by (rewrite list_to_set_elements_L; set_solver).
  change (do members <- class_getattr_default σ1 H DELEGATE_MEMBERS_FIELD (VFrozenset ∅);
          as_set members) with (forwarded_names σ1 H) in Hrun.
  destruct (forwarded_names σ1 H) as [inh|] eqn:Hinh; [|done].
  destruct (inst_class _ _ _ _ _ Hinst) as (c0 & c1 & Hc0 & Hc1 & Hn1 & Ha1 & Hout & Hins).
  assert (c0 = c) as -> by congruence.
  rewrite (type_setattr_store H _ _ σ1 c1 (proj1 ledger_not_intercepted) Hc1) in Hrun.
  destruct (iter dt) as [prior|] eqn:Hprior; [|done].
  erewrite type_setattr_store in Hrun;
    [|apply ledger_not_intercepted|apply lookup_insert_eq].
  cbn [c_name c_ancestors c_dict] in Hrun.
  injection Hrun as <- <-. split; [done|]. exists T, inh, prior.
  assert (DELEGATE_MEMBERS_FIELD ≠ DELEGATE_TYPES_FIELD) as Hfields by done.
  assert (DELEGATE_MEMBERS_FIELD ∉ T) as Hfresh.
  { intros Hin'. destruct (Hins _ Hin') as (p & Hp & [d Hacc] & _).
    unfold forwarded_names in Hinh.
    rewrite (class_getattr_default_class _ _ c1) in Hinh by done.
    by rewrite (type_lookup_own _ _ c1 _ (VRef p)) in Hinh. }
  split; try done.
  - unfold forwarded_names in *.
    rewrite (class_getattr_default_class _ _ c1) in Hinh by done.
    rewrite (class_getattr_default_class _ _ c) by done.
    by rewrite (installed_type_lookup f H T σ σ1) in Hinh.
  - unfold bindings. by rewrite Hdt.
  - eapply preserves_trans; [by apply (inst_preserves _ _ _ _ _ Hinst)|].
    rewrite insert_insert_eq. split.
    + intros l Hl _. by apply lookup_insert_ne.
    + intros l Hl. unfold class_dict in *.
      destruct (decide (H = l)) as [<-|Hne]; [by rewrite Hc1 in Hl|].
      by rewrite lookup_insert_ne.
  - eexists c, _. rewrite lookup_insert_eq.
    split; [done|]. split; [done|]. cbn [c_name c_ancestors c_dict].
    split; [done|]. split; [done|].
    split; [by rewrite lookup_insert_eq|].
    split; [by rewrite lookup_insert_ne, lookup_insert_eq|].
    split.
    + intros k Hk HkT.
      assert (k ≠ DELEGATE_MEMBERS_FIELD) as HkM by (by intros ->).
      destruct (Hins k Hk) as (p & Hp & [d Hacc] & Hnew).
      exists p. rewrite !lookup_insert_ne by done. split; [done|]. split; [|done].
      exists d. rewrite !lookup_insert_ne; [done|intros <-; congruence..].
    + intros k Hk HkT HkM. rewrite !lookup_insert_ne by done. by apply Hout.
Qed.

Lemma preserves_mro H σ σ' c c' l :
  preserves H σ σ' →
  σ !! H = Some (OClass c) → σ' !! H = Some (OClass c') →
  c_ancestors c' = c_ancestors c →
  mro σ' l = mro σ l.
Proof.
  intros P Hc Hc' Ha. unfold mro.
  destruct (decide (l = H)) as [->|Hne].
  - rewrite Hc, Hc'. by rewrite Ha.
  - pose proof (preserves_class_dict H σ σ' l P Hne) as Hd.
    unfold class_dict in Hd. destruct P as [F _].
    destruct (σ !! l) as [o|] eqn:Ho.
    + rewrite F, Ho; eauto.
    + destruct (σ' !! l) as [[| |]|]; done.
Qed.

Lemma applied_mro D f H T inh prior σ σ' l :
  applied D f H T inh prior σ σ' → mro σ' l = mro σ l.
Proof.
  intros Hap. destruct (ap_class _ _ _ _ _ _ _ _ Hap) as (c & c' & Hc & Hc' & _ & Ha & _).
  eapply preserves_mro; eauto using ap_preserves.
Qed.

(** After an application, a name other than the two ledger fields resolves
    as before unless it was forwarded, and to a new accessor if it was. *)
Lemma applied_type_lookup D f H T inh prior σ σ' l name :
  applied D f H T inh prior σ σ' →
  name ≠ DELEGATE_TYPES_FIELD → name ≠ DELEGATE_MEMBERS_FIELD →
  (name ∉ T → type_lookup σ' l name = type_lookup σ l name)
  ∧ (type_lookup σ' l name = type_lookup σ l name
     ∨ ∃ p, type_lookup σ' l name = Some (VRef p) ∧ is_accessor σ' p f name).
Proof.
  intros Hap HnT HnM. unfold type_lookup. rewrite (applied_mro _ _ _ _ _ _ _ _ l Hap).
  destruct (ap_class _ _ _ _ _ _ _ _ Hap) as (c & c' & Hc & Hc' & _ & _ & _ & _ & Hins & Hout).
  pose proof (ap_preserves _ _ _ _ _ _ _ _ Hap) as P.
  assert (name ∉ T → ∀ ls, lookup_along σ' ls name = lookup_along σ ls name) as Hsame.
  { intros Hname ls. apply lookup_along_ext. intros l' _.
    destruct (decide (l' = H)) as [->|Hne].
    - unfold class_dict. rewrite Hc, Hc'. simpl. by apply Hout.
    - by rewrite (preserves_class_dict H σ σ' l'). }
  split; [by auto|].
  destruct (decide (name ∈ T)) as [Hin|Hnotin]; [|left; by apply Hsame].
  destruct (Hins name Hin HnT) as (p & Hp & Hacc & _).
  induction (mro σ l) as [|l' ls IH]; simpl; [by left|].
  destruct (decide (l' = H)) as [->|Hne].
  - right. exists p. unfold class_dict. rewrite Hc'. simpl. by rewrite Hp.
  - rewrite (preserves_class_dict H σ σ' l') by done.
    destruct (class_dict σ l' ≫= (λ d, d !! name)); [by left|done].
Qed.

Lemma elem_of_dict_fields (d : gmap string value) k :
  k ∈ dict_fields d ↔
  ∃ v, d !! k = Some v ∧ _should_ignore_attribute_for_field k v = false.
Proof.
  unfold dict_fields. rewrite elem_of_dom. unfold is_Some.
  setoid_rewrite map_lookup_filter_Some. naive_solver.
Qed.

Lemma targets_Return σ D T :
  targets σ D = Return T ↔
  ∃ d A, class_dict σ D = Some d ∧ annotation_fields σ D = Return A
         ∧ T = dict_fields d ∪ A.
Proof.
  unfold targets. split.
  - destruct (class_dict σ D) as [d|]; [|done].
    destruct (annotation_fields σ D) as [A|]; [|done].
    intros [= <-]. eauto.
  - intros (d & A & -> & -> & ->). done.
Qed.

(** Classification reads the [__dict__]s of the classes of the MRO only. *)
Lemma targets_ext σ1 σ2 D :
  mro σ2 D = mro σ1 D →
  class_dict σ2 D = class_dict σ1 D →
  (∀ l, l ∈ mro σ1 D → class_dict σ2 l = class_dict σ1 l) →
  targets σ2 D = targets σ1 D.
Proof.
  intros Hmro HD Hdicts. unfold targets. rewrite HD.
  destruct (class_dict σ1 D) as [members|] eqn:Hd; [|done].
  apply class_dict_Some in Hd as (c1 & Hc1 & <-).
  apply class_dict_Some in HD as (c2 & Hc2 & _).
  unfold annotation_fields.
  rewrite (class_getattr_default_class σ1 _ c1), (class_getattr_default_class σ2 _ c2) by done.
  assert (type_lookup σ2 D "__annotations__" = type_lookup σ1 D "__annotations__")
    as ->; [|done].
  unfold type_lookup. rewrite Hmro.
  apply lookup_along_ext. intros l Hl. by rewrite Hdicts.
Qed.

Lemma ignored_by_name k v v' :
  _should_ignore_attribute_for_field k v = false →
  isfunction v' = false → ismethod v' = false →
  _should_ignore_attribute_for_field k v' = false.
Proof.
  unfold _should_ignore_attribute_for_field. intros Hv -> ->.
  destruct (isfunction v), (ismethod v); try done.
Qed.

Lemma ledger_fields_ignored v :
  _should_ignore_attribute_for_field DELEGATE_TYPES_FIELD v = true
  ∧ _should_ignore_attribute_for_field DELEGATE_MEMBERS_FIELD v = true.
Proof.
  unfold _should_ignore_attribute_for_field.
  split; destruct (isfunction v), (ismethod v); done.
Qed.

(** A successful application has forwarded no name that the metatype
    intercepts. *)
Lemma decorator_Return_stored D f H σ r σ' T :
  decorator D f H σ = (Return r, σ') →
  targets σ D = Return T →
  ∀ m, m ∈ T → intercepted m = false.
Proof.
  unfold decorator, assert_subclasses, bind, read. intros Hrun HT.
  destruct (issubclass σ H D) as [[|]|e] eqn:Hsub; try done.
  destruct (issubclass_true _ _ _ Hsub) as (c & cD & Hc & HD & Hin).
  cbv beta iota delta [ret] in Hrun.
  destruct (class_getattr_default σ H DELEGATE_TYPES_FIELD EMPTY_SEQUENCE)
    as [dt|] eqn:Hdt; [|done].
  rewrite HT in Hrun.
  assert (class_name σ D = Return (c_name cD)) as Hnm
    by (by unfold class_name; rewrite HD).
  destruct (install_all D f H (elements T) ∅ σ) as [[r1|e1] σ1] eqn:Hrun1; [|done].
  pose proof (install_all_Return D f H _ _ _ c _ _ _ Hc Hnm Hrun1) as Hnames.
  intros m Hm. by apply (proj1 (Forall_forall _ _) Hnames), elem_of_elements.
Qed.

(** Conversely, the decorator runs to completion whenever the host is a
    subclass, the names to forward and the ledger of the host can be read,
    the metatype stores every forwarded name, and the forwarded-names field
    is not itself forwarded. *)
Lemma decorator_succeeds σ D f H T inh prior :
  issubclass σ H D = Return true →
  targets σ D = Return T →
  (∀ m, m ∈ T → intercepted m = false) →
  DELEGATE_MEMBERS_FIELD ∉ T →
  forwarded_names σ H = Return inh →
  bindings σ H = Return prior →
  ∃ σ', decorator D f H σ = (Return H, σ').
Proof.
  intros Hsub HT Hstored Hfresh Hinh Hprior.
  destruct (issubclass_true _ _ _ Hsub) as (c & cD & Hc & HD & Hin).
  unfold decorator, assert_subclasses, bind, read. rewrite Hsub.
  cbv beta iota delta [ret].
  unfold bindings in Hprior.
  destruct (class_getattr_default σ H DELEGATE_TYPES_FIELD EMPTY_SEQUENCE)
    as [dt|] eqn:Hdt; [|done].
  rewrite HT.
  destruct (install_all_spec D f H (elements T) ∅ σ c (c_name cD)) as (σ1 & Hrun1 & Hinst);
    [by apply Forall_forall; intros m Hm%elem_of_elements; apply Hstored
    |done|by unfold class_name; rewrite HD|].
  rewrite Hrun1. rewrite list_to_set_elements_L in Hinst.
  destruct (inst_class _ _ _ _ _ Hinst) as (c0 & c1 & Hc0 & Hc1 & _).
  change (do members <- class_getattr_default σ1 H DELEGATE_MEMBERS_FIELD (VFrozenset ∅);
          as_set members) with (forwarded_names σ1 H).
  assert (forwarded_names σ1 H = Return inh) as ->.
  { unfold forwarded_names in *.
    rewrite (class_getattr_default_class _ _ c1) by done.
    rewrite (class_getattr_default_class _ _ c) in Hinh by done.
    by rewrite (installed_type_lookup f H T σ σ1). }
  rewrite (type_setattr_store H _ _ σ1 c1 (proj1 ledger_not_intercepted) Hc1).
  simpl in Hprior. rewrite Hprior.
  erewrite type_setattr_store; [|apply ledger_not_intercepted|apply lookup_insert_eq].
  eauto.
Qed.

Lemma applied_targets_other σ D f H T inh prior σ' D' :
  applied D f H T inh prior σ σ' →
  H ∉ mro σ D' →
  targets σ' D' = targets σ D'.
Proof.
  intros Hap Hnot. pose proof (ap_preserves _ _ _ _ _ _ _ _ Hap) as P.
  apply targets_ext.
  - by eapply applied_mro.
  - apply (preserves_class_dict H); [done|]. intros ->.
    destruct (ap_class _ _ _ _ _ _ _ _ Hap) as (c & _ & Hc & _).
    apply Hnot. unfold mro. rewrite Hc. by left.
  - intros l Hl. apply (preserves_class_dict H); [done|]. by intros ->.
Qed.

Lemma applied_class σ D f H T inh prior σ' l c :
  applied D f H T inh prior σ σ' →
  σ !! l = Some (OClass c) → ∃ c', σ' !! l = Some (OClass c').
Proof.
  intros Hap Hl. destruct (decide (l = H)) as [->|Hne].
  - destruct (ap_class _ _ _ _ _ _ _ _ Hap) as (? & c' & _ & Hc' & _). eauto.
  - destruct (ap_preserves _ _ _ _ _ _ _ _ Hap) as [F _].
    exists c. rewrite F; [done..|by rewrite Hl].
Qed.

(** Applying the decorator does not change what a later classification of
    the same delegate type yields, even when the delegate type is the host
    itself: the names it adds to the host are the classified ones. *)
Lemma targets_reapplied σ D f H T inh prior σ' T' :
  applied D f H T inh prior σ σ' →
  targets σ' D = Return T' →
  T' = T.
Proof.
  intros Hap (d' & A' & Hd' & HA' & ->)%targets_Return.
  destruct (proj1 (targets_Return _ _ _) (ap_targets _ _ _ _ _ _ _ _ Hap))
    as (d & A & Hd & HA & ->).
  apply class_dict_Some in Hd as (cD & HcD & <-).
  apply class_dict_Some in Hd' as (cD' & HcD' & <-).
  assert (A' = A) as ->.
  { unfold annotation_fields in *.
    rewrite (class_getattr_default_class _ _ cD') in HA' by done.
    rewrite (class_getattr_default_class _ _ cD) in HA by done.
    destruct (applied_type_lookup D f H _ _ _ σ σ' D "__annotations__" Hap)
      as [_ [Heq|(p & Hp & [dc Hacc])]]; [done..| |].
    - rewrite Heq in HA'. simpl in *. congruence.
    - rewrite Hp in HA'. done. }
  destruct (decide (D = H)) as [->|Hne].
  - destruct (ap_class _ _ _ _ _ _ _ _ Hap) as (c & c' & Hc & Hc' & _ & _ & _ & _ & Hins & Hout).
    assert (cD = c) as -> by congruence. assert (cD' = c') as -> by congruence.
    apply set_eq. intros k. rewrite !elem_of_union, !elem_of_dict_fields.
    split.
    + intros [(v & Hv & Hig)|HkA]; [|by right].
      destruct (decide (k ∈ dict_fields (c_dict c) ∪ A)) as [Hin|Hnotin].
      { apply elem_of_union in Hin. by rewrite elem_of_dict_fields in Hin. }
      left. exists v. split; [|done]. rewrite <-Hout; [done|done|..].
      * intros ->. by rewrite (proj1 (ledger_fields_ignored v)) in Hig.
      * intros ->. by rewrite (proj2 (ledger_fields_ignored v)) in Hig.
    + intros [(v & Hv & Hig)|HkA]; [|by right].
      assert (k ∈ dict_fields (c_dict c) ∪ A) as Hin.
      { apply elem_of_union. left. apply elem_of_dict_fields. eauto. }
      destruct (Hins k Hin) as (p & Hp & _).
      { intros ->. by rewrite (proj1 (ledger_fields_ignored v)) in Hig. }
      left. exists (VRef p). split; [done|]. by eapply ignored_by_name.
  - assert (cD' = cD) as ->; [|done].
    destruct (ap_preserves _ _ _ _ _ _ _ _ Hap) as [F _].
    rewrite F in HcD'; [congruence|done|by rewrite HcD].
Qed.

(** A delegation that was applied to a proper subclass can be applied
    again. *)
Lemma reapplication_succeeds σ D f H r σ' :
  decorator D f H σ = (Return r, σ') →
  H ∉ mro σ D →
  ∃ σ'', decorator D f H σ' = (Return H, σ'').
Proof.
  intros Hrun Hnot.
  destruct (decorator_Return _ _ _ _ _ _ Hrun) as (_ & T & inh & prior & Hap).
  destruct (issubclass_true _ _ _ (ap_subclass _ _ _ _ _ _ _ _ Hap))
    as (c & cD & Hc & HD & Hin).
  destruct (applied_class _ _ _ _ _ _ _ _ _ _ Hap Hc) as [c' Hc'].
  destruct (applied_class _ _ _ _ _ _ _ _ _ _ Hap HD) as [cD' HD'].
  apply (decorator_succeeds σ' D f H T (T ∪ inh) (prior ++ [binding f D])).
  - unfold issubclass. rewrite Hc', HD'.
    rewrite (applied_mro _ _ _ _ _ _ _ _ H Hap). by rewrite bool_decide_eq_true_2.
  - rewrite (applied_targets_other _ _ _ _ _ _ _ _ D Hap Hnot). by eapply ap_targets.
  - eapply decorator_Return_stored; [exact Hrun|by eapply ap_targets].
  - by eapply ap_members_not_target.
  - unfold forwarded_names.
    destruct (ap_class _ _ _ _ _ _ _ _ Hap) as (? & c1 & _ & Hc1 & _ & _ & _ & HM & _).
    rewrite (class_getattr_default_class _ _ c1) by done.
    by rewrite (type_lookup_own _ _ c1 _ _ Hc1 HM).
  - unfold bindings.
    destruct (ap_class _ _ _ _ _ _ _ _ Hap) as (? & c1 & _ & Hc1 & _ & _ & HT & _).
    rewrite (class_getattr_default_class _ _ c1) by done.
    by rewrite (type_lookup_own _ _ c1 _ _ Hc1 HT).
Qed.
End decorator.

(** ** Reads and writes through an installed accessor *)

Section accessors.
Implicit Types (σ : heap) (h p : loc) (m f : string).

(** On an instance that has no attribute [m] of its own, a class attribute
    [m] that is an accessor forwards the read. *)
Lemma getattr_accessor n σ h i m p f m' :
  σ !! h = Some (OInstance i) →
  type_lookup σ (i_class i) m = Some (VRef p) →
  is_accessor σ p f m' →
  i_dict i ≫= (λ d, d !! m) = None →
  getattr (S n) σ (VRef h) m =
    (do delegated_object <- getattr n σ (VRef h) f; getattr n σ delegated_object m').
Proof.
  intros Hh Hm [d Hp] Hown. simpl. unfold getattr_at_depth.
  rewrite Hh, Hm, Hown. simpl. by rewrite Hp.
Qed.

Lemma applied_accessor D f H T inh prior σ σ' m :
  applied D f H T inh prior σ σ' →
  m ∈ T → m ≠ DELEGATE_TYPES_FIELD →
  ∃ p, type_lookup σ' H m = Some (VRef p) ∧ is_accessor σ' p f m.
Proof.
  intros Hap Hm HmT.
  destruct (ap_class _ _ _ _ _ _ _ _ Hap) as (c & c' & _ & Hc' & _ & _ & _ & _ & Hins & _).
  destruct (Hins m Hm HmT) as (p & Hp & Hacc & _).
  exists p. split; [|done]. by eapply type_lookup_own.
Qed.

Lemma applied_forwarded D f H T inh prior σ σ' :
  applied D f H T inh prior σ σ' →
  forwarded_names σ' H = Return (T ∪ inh).
Proof.
  intros Hap.
  destruct (ap_class _ _ _ _ _ _ _ _ Hap) as (c & c' & _ & Hc' & _ & _ & _ & HM & _).
  unfold forwarded_names. rewrite (class_getattr_default_class _ _ c') by done.
  by rewrite (type_lookup_own _ _ c' _ _ Hc' HM).
Qed.

Lemma applied_bindings D f H T inh prior σ σ' :
  applied D f H T inh prior σ σ' →
  bindings σ' H = Return (prior ++ [binding f D])%list.
Proof.
  intros Hap.
  destruct (ap_class _ _ _ _ _ _ _ _ Hap) as (c & c' & _ & Hc' & _ & _ & HT & _).
  unfold bindings. rewrite (class_getattr_default_class _ _ c') by done.
  by rewrite (type_lookup_own _ _ c' _ _ Hc' HT).
Qed.

Lemma applied_is_accessor D f H T inh prior σ σ' p f' m' :
  applied D f H T inh prior σ σ' →
  is_accessor σ p f' m' → is_accessor σ' p f' m'.
Proof.
  intros Hap [d Hp]. exists d.
  destruct (ap_class _ _ _ _ _ _ _ _ Hap) as (c & _ & Hc & _).
  destruct (ap_preserves _ _ _ _ _ _ _ _ Hap) as [F _].
  rewrite F; [done| |by rewrite Hp]. intros ->. congruence.
Qed.

Lemma is_accessor_inj σ p f m f' m' :
  is_accessor σ p f m → is_accessor σ p f' m' → f = f' ∧ m = m'.
Proof. intros [d Hp] [d' Hp']. rewrite Hp in Hp'. by injection Hp'. Qed.
End accessors.

(** * The claims *)

Import Example.

(** Closed decidable facts about the example are settled by evaluation. *)
Ltac by_evaluation :=
  solve [ vm_compute; reflexivity
        | apply (bool_decide_unpack _); vm_compute; exact I ].

(** The example behaves as the library's [Member] does: a member shows the
    [id] of its user, with or without an instance [__dict__]; and a slotted
    member rejects the assignment of a forwarded name. *)
Example member_reads_id :
  getattr 3 decorated (VRef a_member) "id" = Return (VInt 7).
Proof. by_evaluation. Qed.

Example slotted_member_reads_id :
  getattr 3 decorated_slotted (VRef a_slotted_member) "id" = Return (VInt 7).
Proof. by_evaluation. Qed.

Example slotted_member_write_rejected :
  (object_setattr a_slotted_member "id" (VInt 5) decorated_slotted).1 = Raise AttributeError.
Proof. by_evaluation. Qed.

Example accessor_docstring :
  getattr 1 decorated (VRef 14%positive) "__doc__" = Return (VStr "See :attr:`User.id`.").
Proof. by_evaluation. Qed.

(** C1. The code does not do what the claim says, nor what the docstring
    of [DelegatedProperty] promises (the accessor "redirects any
    accession"): the class defines [__get__] and no [__set__], so it is a
    non-data descriptor, and an entry of the instance's own [__dict__] comes
    before it. A member whose [__dict__] holds [id = 42] and whose field
    [user] holds a user with [id = 7] reads 42. *)
Lemma delegated_read_shadowed :
  (delegate_to User "user" Member world).1 = Return Member
  ∧ targets world User = Return {[ "id"; "name" ]}
  ∧ getattr 3 decorated (VRef a_shadowing_member) "user" = Return (VRef a_user)
  ∧ getattr 3 decorated (VRef a_user) "id" = Return (VInt 7)
  ∧ getattr 3 decorated (VRef a_shadowing_member) "id" = Return (VInt 42).
Proof. repeat split; vm_compute; reflexivity. Qed.

(** C2. The code does not do what the claim says, nor what the docstring
    of [DelegatedProperty] promises ("This property is read-only"): with no
    [__set__] nothing raises a not-implemented error. Assigning the
    forwarded name [id] on a member raises nothing; the value is stored in
    the member's own [__dict__], and the member reads it from then on
    instead of the [id] of its user. The user itself is not written, which
    is the part of the claim that holds. *)
Lemma write_succeeds :
  (delegate_to User "user" Member world).1 = Return Member
  ∧ getattr 3 decorated (VRef a_member) "id" = Return (VInt 7)
  ∧ (object_setattr a_member "id" (VInt 5) decorated).1 = Return ()
  ∧ (object_setattr a_member "id" (VInt 5) decorated).1 ≠ Raise NotImplementedError
  ∧ getattr 3 (object_setattr a_member "id" (VInt 5) decorated).2 (VRef a_member) "id"
    = Return (VInt 5)
  ∧ getattr 3 (object_setattr a_member "id" (VInt 5) decorated).2 (VRef a_user) "id"
    = Return (VInt 7)
  ∧ (object_setattr a_member "id" (VInt 5) decorated).2 !! a_user = decorated !! a_user.
Proof.
  split; [vm_compute; reflexivity|]. split; [vm_compute; reflexivity|].
  split; [vm_compute; reflexivity|]. split; [vm_compute; discriminate|].
  repeat split; vm_compute; reflexivity.
Qed.

(** C3. When [H] is not a subclass of [D], the decorator raises
    [ConfigurationError] and the heap, and with it the bindings and the
    forwarded names of [H] and every class attribute, is what it was. *)
Theorem not_subclass_rejected σ D f H c cD :
  σ !! H = Some (OClass c) →
  σ !! D = Some (OClass cD) →
  D ∉ mro σ H →
  decorator D f H σ = (Raise ConfigurationError, σ).
Proof.
  intros Hc HD Hnot. unfold decorator, assert_subclasses, bind, read, issubclass.
  rewrite Hc, HD. by rewrite bool_decide_eq_false_2.
Qed.

Lemma not_subclass_rejected_witness :
  decorator Presence "presence" Member world = (Raise ConfigurationError, world).
Proof.
  eapply (not_subclass_rejected world Presence "presence" Member); by_evaluation.
Defined.




(** C7. Reading a forwarded name on the class itself, where the lookup
    finds an accessor, calls its [__get__] without an instance and returns
    the accessor object. *)
Theorem type_level_access n σ H c m p dp :
  σ !! H = Some (OClass c) →
  type_lookup σ H m = Some (VRef p) →
  σ !! p = Some (OProperty dp) →
  getattr (S n) σ (VRef H) m = Return (VRef p)
  ∧ ∀ g, DelegatedProperty__get__ g p dp VNone (VRef H) = Return (VRef p).
Proof.
  intros Hc Hm Hp. split; [|done].
  rewrite (getattr_class _ _ _ c) by done. by rewrite Hm.
Qed.

Lemma type_level_access_witness :
  getattr 1 decorated (VRef Member) "id" = Return (VRef 14%positive)
  ∧ is_accessor decorated 14%positive "user" "id".
Proof.
  split.
  - eapply proj1, (type_level_access 0 decorated Member); vm_compute; reflexivity.
  - eexists. vm_compute. reflexivity.
Defined.

(** C8. Classification reads the heap and changes nothing, so classifying
    twice in a row yields the same set twice; and the set is determined by
    the delegate type and the classes of its MRO alone: in any two heaps
    that agree on those, classification yields the same. *)
Theorem classification_deterministic σ1 σ2 D :
  σ2 !! D = σ1 !! D →
  (∀ l, l ∈ mro σ1 D → σ2 !! l = σ1 !! l) →
  targets σ2 D = targets σ1 D
  ∧ (let! first := read (λ σ, targets σ D) in
     let! second := read (λ σ, targets σ D) in
     ret (first, second)) σ1
    = (do T <- targets σ1 D; Return (T, T), σ1).
Proof.
  intros HD Hmro. split.
  - apply targets_ext.
    + unfold mro. by rewrite HD.
    + unfold class_dict. by rewrite HD.
    + intros l Hl. unfold class_dict. by rewrite Hmro.
  - unfold bind, read, ret. by destruct (targets σ1 D).
Qed.

Lemma classification_deterministic_witness :
  targets decorated User = targets world User.
Proof.
  apply (classification_deterministic world decorated User).
  - vm_compute. reflexivity.
  - intros l Hl. vm_compute in Hl. apply list_elem_of_singleton in Hl as ->.
    vm_compute. reflexivity.
Defined.

(** C6. After an application, the bindings read on the host are the
    bindings that were visible on it before, which the read takes from the
    nearest class of the MRO that has any, with the new pair appended. The
    [__dict__] of every other class, ancestors included, is as before, so
    the new tuple is stored on the host alone. *)
Theorem bindings_appended σ D f H r σ' :
  decorator D f H σ = (Return r, σ') →
  ∃ prior,
    bindings σ H = Return prior
    ∧ bindings σ' H = Return (prior ++ [binding f D])%list
    ∧ ∀ A, A ≠ H → class_dict σ' A = class_dict σ A.
Proof.
  intros Hrun.
  destruct (decorator_Return _ _ _ _ _ _ Hrun) as (_ & T & inh & prior & Hap).
  exists prior. split; [by eapply ap_bindings|]. split; [by eapply applied_bindings|].
  intros A HA. eapply preserves_class_dict; [by eapply ap_preserves|done].
Qed.

Lemma bindings_appended_witness :
  bindings decorated RichMember = Return [binding "user" User]
  ∧ bindings layered RichMember = Return [binding "user" User; binding "presence" Presence]
  ∧ bindings layered Member = Return [binding "user" User].
Proof.
  destruct (bindings_appended decorated Presence "presence" RichMember RichMember layered)
    as (prior & Hprior & Hafter & _); [by_evaluation|].
  assert (prior = [binding "user" User]) as ->.
  { assert (bindings decorated RichMember = Return [binding "user" User]) as Hb
      by by_evaluation.
    rewrite Hb in Hprior. by injection Hprior. }
  split; [done|]. split; [done|]. by_evaluation.
Defined.

(** C9. Whatever the outcome, the decorator leaves every class other than
    the decorated one as it was; in particular the two ledger attributes of
    an ancestor, and of any class that does not inherit from the decorated
    one, read as before. *)
Theorem ancestors_untouched σ D f H r σ' A cA :
  decorator D f H σ = (r, σ') →
  A ≠ H →
  σ !! A = Some (OClass cA) →
  σ' !! A = Some (OClass cA)
  ∧ (H ∉ mro σ A →
     class_getattr σ' A DELEGATE_MEMBERS_FIELD = class_getattr σ A DELEGATE_MEMBERS_FIELD
     ∧ class_getattr σ' A DELEGATE_TYPES_FIELD = class_getattr σ A DELEGATE_TYPES_FIELD).
Proof.
  intros Hrun HA HcA. pose proof (frames_decorator H D f σ r σ' Hrun) as P.
  assert (σ' !! A = Some (OClass cA)) as HcA'.
  { destruct P as [F _]. rewrite F; [done..|by rewrite HcA]. }
  split; [done|]. intros Hmro.
  assert (∀ name, class_getattr σ' A name = class_getattr σ A name) as Hsame; [|by split].
  intros name. unfold class_getattr. rewrite !(getattr_class _ _ _ cA) by done.
  f_equal. unfold type_lookup.
  assert (mro σ' A = mro σ A) as -> by (unfold mro; by rewrite HcA, HcA').
  apply lookup_along_ext. intros l Hl.
  rewrite (preserves_class_dict H σ σ' l); [done..|]. by intros ->.
Qed.

Lemma ancestors_untouched_witness :
  layered !! Member = decorated !! Member
  ∧ class_getattr layered Member DELEGATE_MEMBERS_FIELD
    = class_getattr decorated Member DELEGATE_MEMBERS_FIELD.
Proof.
  edestruct (ancestors_untouched decorated Presence "presence" RichMember
               (Return RichMember) layered Member) as [Hobj Hread];
    [by_evaluation | discriminate | vm_compute; reflexivity |].
  split; [by_evaluation|]. apply Hread. by_evaluation.
Defined.

(** C5 (as amended). After [delegate_to(D1, f1)] and then
    [delegate_to(D2, f2)] on the same host, where the two applications
    forward disjoint sets of names, the forwarded names of the host are
    those two sets together with the names that were visible on the host
    before, its own or inherited. On an instance of the host with no entry
    [m] in its own [__dict__], a name [m] forwarded for [D1] reads through
    [f1] and one forwarded for [D2] through [f2]. *)
Theorem layering σ D1 f1 D2 f2 H r1 σ1 r2 σ2 T1 T2 inh :
  decorator D1 f1 H σ = (Return r1, σ1) →
  decorator D2 f2 H σ1 = (Return r2, σ2) →
  targets σ D1 = Return T1 →
  targets σ1 D2 = Return T2 →
  T1 ## T2 →
  forwarded_names σ H = Return inh →
  forwarded_names σ2 H = Return (T1 ∪ T2 ∪ inh)
  ∧ ∀ m h i n,
      m ≠ DELEGATE_TYPES_FIELD →
      σ2 !! h = Some (OInstance i) → i_class i = H →
      i_dict i ≫= (λ own, own !! m) = None →
      (m ∈ T1 →
       getattr (S n) σ2 (VRef h) m =
         (do delegated_object <- getattr n σ2 (VRef h) f1; getattr n σ2 delegated_object m))
      ∧ (m ∈ T2 →
         getattr (S n) σ2 (VRef h) m =
           (do delegated_object <- getattr n σ2 (VRef h) f2; getattr n σ2 delegated_object m)).
Proof.
  intros Hrun1 Hrun2 HT1 HT2 Hdisj Hinh.
  destruct (decorator_Return _ _ _ _ _ _ Hrun1) as (_ & T1' & inh' & prior1 & Hap1).
  destruct (decorator_Return _ _ _ _ _ _ Hrun2) as (_ & T2' & inh2 & prior2 & Hap2).
  assert (T1' = T1) as -> by (pose proof (ap_targets _ _ _ _ _ _ _ _ Hap1); congruence).
  assert (T2' = T2) as -> by (pose proof (ap_targets _ _ _ _ _ _ _ _ Hap2); congruence).
  assert (inh' = inh) as -> by (pose proof (ap_forwarded _ _ _ _ _ _ _ _ Hap1); congruence).
  assert (inh2 = T1 ∪ inh) as ->.
  { pose proof (ap_forwarded _ _ _ _ _ _ _ _ Hap2) as Hf.
    rewrite (applied_forwarded _ _ _ _ _ _ _ _ Hap1) in Hf. by injection Hf. }
  split.
  - rewrite (applied_forwarded _ _ _ _ _ _ _ _ Hap2). f_equal. set_solver.
  - intros m h i n HmT Hh Hcls Hown. split; intros Hm.
    + destruct (applied_accessor _ _ _ _ _ _ _ _ m Hap1 Hm HmT) as (p & Hp & Hacc).
      apply (getattr_accessor n σ2 h i m p f1 m); [done| |by eapply applied_is_accessor|done].
      rewrite Hcls.
      destruct (applied_type_lookup _ _ _ _ _ _ _ _ H m Hap2) as [Hsame _]; [done| |].
      * intros ->. by apply (ap_members_not_target _ _ _ _ _ _ _ _ Hap1).
      * rewrite Hsame; [done|]. set_solver.
    + destruct (applied_accessor _ _ _ _ _ _ _ _ m Hap2 Hm HmT) as (p & Hp & Hacc).
      apply (getattr_accessor n σ2 h i m p f2 m); [done|by rewrite Hcls|done..].
Qed.

Lemma layering_witness :
  forwarded_names layered_twice RichMember
    = Return ({[ "status" ]} ∪ {[ "on_ready" ]} ∪ {[ "id"; "name" ]})
  ∧ getattr 1 layered_twice (VRef RichMember) "status" = Return (VRef 16%positive)
  ∧ is_accessor layered_twice 16%positive "presence" "status".
Proof.
  edestruct (layering decorated Presence "presence" Callbacks "callbacks" RichMember
               RichMember layered RichMember layered_twice
               {[ "status" ]} {[ "on_ready" ]} {[ "id"; "name" ]}) as [Hnames _];
    [by_evaluation..|].
  split; [exact Hnames|]. split; [by_evaluation|].
  eexists. vm_compute. reflexivity.
Defined.

(** C5, as stated, fails: [RichMember] inherits the forwarded names of the
    decorated [Member], so after the two applications its forwarded names
    are more than the names of [Presence] and [Callbacks]. *)
Lemma layering_keeps_inherited_names :
  (delegate_to Presence "presence" RichMember decorated).1 = Return RichMember
  ∧ (delegate_to Callbacks "callbacks" RichMember layered).1 = Return RichMember
  ∧ targets decorated Presence = Return {[ "status" ]}
  ∧ targets layered Callbacks = Return {[ "on_ready" ]}
  ∧ forwarded_names layered_twice RichMember
    = Return ({[ "status" ]} ∪ {[ "on_ready" ]} ∪ {[ "id"; "name" ]})
  ∧ "id" ∉ ({[ "status" ]} ∪ {[ "on_ready" ]} : gset string).
Proof. repeat split; by_evaluation. Qed.

(** C10. Applying the same delegation a second time leaves the forwarded
    names of the host as they were and appends the same pair to its
    bindings once more. Every name of the host that resolved to an accessor
    still resolves to an accessor with the same field and member name, so
    reads on instances go through the same two attribute reads as before. *)
Theorem reapplied σ D f H r1 σ1 r2 σ2 :
  decorator D f H σ = (Return r1, σ1) →
  decorator D f H σ1 = (Return r2, σ2) →
  forwarded_names σ2 H = forwarded_names σ1 H
  ∧ (∃ prior,
       bindings σ H = Return prior
       ∧ bindings σ1 H = Return (prior ++ [binding f D])%list
       ∧ bindings σ2 H = Return (prior ++ [binding f D; binding f D])%list)
  ∧ (∀ m p f' m',
       type_lookup σ1 H m = Some (VRef p) → is_accessor σ1 p f' m' →
       ∃ p', type_lookup σ2 H m = Some (VRef p') ∧ is_accessor σ2 p' f' m')
  ∧ (∀ m p f' m' h i n,
       type_lookup σ1 H m = Some (VRef p) → is_accessor σ1 p f' m' →
       σ1 !! h = Some (OInstance i) → i_class i = H →
       i_dict i ≫= (λ own, own !! m) = None →
       σ2 !! h = Some (OInstance i)
       ∧ getattr (S n) σ1 (VRef h) m =
           (do delegated_object <- getattr n σ1 (VRef h) f'; getattr n σ1 delegated_object m')
       ∧ getattr (S n) σ2 (VRef h) m =
           (do delegated_object <- getattr n σ2 (VRef h) f'; getattr n σ2 delegated_object m')).
Proof.
  intros Hrun1 Hrun2.
  destruct (decorator_Return _ _ _ _ _ _ Hrun1) as (_ & T & inh & prior & Hap1).
  destruct (decorator_Return _ _ _ _ _ _ Hrun2) as (_ & T' & inh1 & prior1 & Hap2).
  assert (T' = T) as ->
    by (eapply targets_reapplied; [exact Hap1|by eapply ap_targets]).
  assert (inh1 = T ∪ inh) as ->.
  { pose proof (ap_forwarded _ _ _ _ _ _ _ _ Hap2) as Hf.
    rewrite (applied_forwarded _ _ _ _ _ _ _ _ Hap1) in Hf. by injection Hf. }
  assert (prior1 = (prior ++ [binding f D])%list) as ->.
  { pose proof (ap_bindings _ _ _ _ _ _ _ _ Hap2) as Hb.
    rewrite (applied_bindings _ _ _ _ _ _ _ _ Hap1) in Hb. by injection Hb. }
  assert (∀ m p f' m',
       type_lookup σ1 H m = Some (VRef p) → is_accessor σ1 p f' m' →
       ∃ p', type_lookup σ2 H m = Some (VRef p') ∧ is_accessor σ2 p' f' m') as Hkeep.
  { intros m p f' m' Hlook Hacc.
    destruct (ap_class _ _ _ _ _ _ _ _ Hap1) as (c & c1 & _ & Hc1 & _ & _ & HT & HM & _).
    destruct (decide (m = DELEGATE_TYPES_FIELD)) as [->|HmT].
    { by rewrite (type_lookup_own _ _ c1 _ _ Hc1 HT) in Hlook. }
    destruct (decide (m = DELEGATE_MEMBERS_FIELD)) as [->|HmM].
    { by rewrite (type_lookup_own _ _ c1 _ _ Hc1 HM) in Hlook. }
    destruct (decide (m ∈ T)) as [Hm|Hm].
    - destruct (applied_accessor _ _ _ _ _ _ _ _ m Hap1 Hm HmT) as (p0 & Hp0 & Hacc0).
      assert (p0 = p) as -> by congruence.
      destruct (is_accessor_inj _ _ _ _ _ _ Hacc0 Hacc) as [<- <-].
      by apply (applied_accessor _ _ _ _ _ _ _ _ m Hap2).
    - exists p. split; [|by eapply applied_is_accessor].
      destruct (applied_type_lookup _ _ _ _ _ _ _ _ H m Hap2) as [Hsame _]; [done..|].
      by rewrite Hsame. }
  split; [|split; [|split; [done|]]].
  - rewrite (applied_forwarded _ _ _ _ _ _ _ _ Hap2).
    rewrite (applied_forwarded _ _ _ _ _ _ _ _ Hap1). f_equal. set_solver.
  - exists prior. split; [by eapply ap_bindings|]. split; [by eapply applied_bindings|].
    rewrite (applied_bindings _ _ _ _ _ _ _ _ Hap2). by rewrite <-app_assoc.
  - intros m p f' m' h i n Hlook Hacc Hh Hcls Hown.
    assert (σ2 !! h = Some (OInstance i)) as Hh2.
    { destruct (ap_class _ _ _ _ _ _ _ _ Hap2) as (c1 & _ & Hc1 & _).
      destruct (ap_preserves _ _ _ _ _ _ _ _ Hap2) as [F _].
      rewrite F; [done| |by rewrite Hh]. intros ->. congruence. }
    split; [done|]. split.
    + apply (getattr_accessor n σ1 h i m p f' m'); [done|by rewrite Hcls|done..].
    + destruct (Hkeep m p f' m' Hlook Hacc) as (p' & Hlook' & Hacc').
      apply (getattr_accessor n σ2 h i m p' f' m'); [done|by rewrite Hcls|done..].
Qed.

Lemma reapplied_witness :
  forwarded_names redecorated Member = forwarded_names decorated Member
  ∧ bindings redecorated Member = Return [binding "user" User; binding "user" User].
Proof.
  edestruct (reapplied world User "user" Member Member decorated Member redecorated)
    as (Hnames & (prior & Hprior & _ & Hafter) & _); [by_evaluation..|].
  split; [done|].
  assert (prior = []) as ->; [|done].
  assert (bindings world Member = Return []) as Hb by by_evaluation.
  rewrite Hb in Hprior. by injection Hprior.
Defined.

(** * Further properties of the decorator and of the accessors *)

(** ** When the decorator returns, and what a failure leaves behind *)

(** The decorator returns nothing but the class it was given. When the
    names to forward are ordinary ones, it returns exactly when the host is
    a subclass of the delegate type and the forwarded names and the bindings
    visible on the host are a set and an iterable. *)
Theorem decorator_returns_iff σ D f H T :
  targets σ D = Return T →
  ordinary_names T →
  (∀ r σ', decorator D f H σ = (Return r, σ') → r = H)
  ∧ ((∃ σ', decorator D f H σ = (Return H, σ'))
     ↔ issubclass σ H D = Return true
       ∧ (∃ inh, forwarded_names σ H = Return inh)
       ∧ (∃ prior, bindings σ H = Return prior)).
Proof.
  intros HT Hord. split; [|split].
  - intros r σ' Hrun. by destruct (decorator_Return _ _ _ _ _ _ Hrun) as (-> & _).
  - intros (σ' & Hrun).
    destruct (decorator_Return _ _ _ _ _ _ Hrun) as (_ & T' & inh & prior & Hap).
    split; [by eapply ap_subclass|].
    split; [exists inh; by eapply ap_forwarded|exists prior; by eapply ap_bindings].
  - intros (Hsub & [inh Hinh] & [prior Hprior]).
    apply (decorator_succeeds σ D f H T inh prior); try done.
    + intros m. by apply ordinary_names_stored.
    + by apply ordinary_names_ledger.
Qed.

Lemma decorator_returns_iff_witness :
  ∃ σ', decorator User "user" Member world = (Return Member, σ').
Proof.
  apply (decorator_returns_iff world User "user" Member {[ "id"; "name" ]});
    [by_evaluation|by_evaluation|].
  split; [by_evaluation|].
  split; [exists ∅; by_evaluation|exists []; by_evaluation].
Defined.

(** The outcome of a failed classification is the outcome of the
    decorator. *)
Lemma decorator_raises_from_classification σ D f H e :
  issubclass σ H D = Return true →
  targets σ D = Raise e →
  (decorator D f H σ).1 = Raise e.
Proof.
  intros Hsub HT.
  destruct (issubclass_true _ _ _ Hsub) as (c & cD & Hc & HD & Hin).
  unfold decorator, assert_subclasses, bind, read. rewrite Hsub.
  cbv beta iota delta [ret].
  rewrite (class_getattr_default_class _ _ c) by done. by rewrite HT.
Qed.

(** Annotations that cannot be iterated make the decorator fail before it
    writes anything: the error is raised with the heap as it was. *)
Theorem classification_failure_writes_nothing σ D f H e :
  issubclass σ H D = Return true →
  (do annotations <- class_getattr_default σ D "__annotations__" EMPTY_SEQUENCE;
   iter annotations) = Raise e →
  decorator D f H σ = (Raise e, σ).
Proof.
  intros Hsub Hiter.
  destruct (issubclass_true _ _ _ Hsub) as (c & cD & Hc & HD & Hin).
  assert (targets σ D = Raise e) as HT.
  { unfold targets, class_dict, annotation_fields. rewrite HD.
    destruct (class_getattr_default σ D "__annotations__" EMPTY_SEQUENCE) as [ann|];
      cbn [obind] in *.
    - by rewrite Hiter.
    - by injection Hiter as ->. }
  unfold decorator, assert_subclasses, bind, read. rewrite Hsub.
  cbv beta iota delta [ret].
  rewrite (class_getattr_default_class _ _ c) by done. by rewrite HT.
Qed.

Lemma classification_failure_writes_nothing_witness :
  decorator Odd.Broken "broken" Odd.BrokenHost Odd.start = (Raise TypeError, Odd.start).
Proof.
  apply (classification_failure_writes_nothing Odd.start Odd.Broken "broken" Odd.BrokenHost);
    by_evaluation.
Defined.

Lemma decorator_raises_from_loop σ D f H T m :
  issubclass σ H D = Return true →
  targets σ D = Return T →
  m ∈ T → intercepted m = true →
  ∃ e σ',
    decorator D f H σ = (Raise e, σ')
    ∧ (e = AttributeError ∨ e = TypeError)
    ∧ (∀ k, k ∉ T →
         class_dict σ' H ≫= (λ own, own !! k) = class_dict σ H ≫= (λ own, own !! k)).
Proof.
  intros Hsub HT Hm Hname.
  destruct (issubclass_true _ _ _ Hsub) as (c & cD & Hc & HD & Hin).
  unfold decorator, assert_subclasses, bind, read. rewrite Hsub.
  cbv beta iota delta [ret].
  rewrite (class_getattr_default_class _ _ c) by done. rewrite HT.
  assert (class_name σ D = Return (c_name cD)) as Hnm
    by (by unfold class_name; rewrite HD).
  destruct (install_all D f H (elements T) ∅ σ) as [[r1|e1] σ1] eqn:Hrun1.
  - pose proof (install_all_Return D f H _ _ _ c _ _ _ Hc Hnm Hrun1) as Hnames.
    rewrite (proj1 (Forall_forall _ _) Hnames m) in Hname; [done|].
    by apply elem_of_elements.
  - destruct (install_all_raises D f H _ _ _ c _ _ _ Hc Hnm Hrun1) as [He _].
    destruct (install_all_outside D f H _ _ _ c _ _ _ Hc Hnm Hrun1) as (c' & Hc' & Hkeep).
    exists e1, σ1. split; [done|]. split; [done|].
    intros k Hk. unfold class_dict. rewrite Hc, Hc'. simpl. apply Hkeep.
    by rewrite elem_of_elements.
Qed.

(** A forwarded name that the metatype keeps for itself, such as [__mro__]
    or [__name__], which only the annotations can bring in, stops the
    decorator inside the loop: [setattr] raises [AttributeError] or
    [TypeError], and the host has no entry written other than those of
    forwarded names, so that neither ledger field records the
    application. *)
Theorem reserved_name_stops_loop σ D f H T m :
  issubclass σ H D = Return true →
  targets σ D = Return T →
  m ∈ T → intercepted m = true →
  ∃ e σ',
    decorator D f H σ = (Raise e, σ')
    ∧ (e = AttributeError ∨ e = TypeError)
    ∧ (∀ k, k ∉ T →
         class_dict σ' H ≫= (λ own, own !! k) = class_dict σ H ≫= (λ own, own !! k)).
Proof. exact (decorator_raises_from_loop σ D f H T m). Qed.

Lemma reserved_name_stops_loop_witness :
  (decorator Reserved.Shape "shape" Reserved.Drawing Reserved.start).1
  = Raise AttributeError
  ∧ class_dict (decorator Reserved.Shape "shape" Reserved.Drawing Reserved.start).2
      Reserved.Drawing ≫= (λ own, own !! DELEGATE_TYPES_FIELD) = None.
Proof.
  split; [by_evaluation|].
  destruct (reserved_name_stops_loop Reserved.start Reserved.Shape "shape" Reserved.Drawing
              {[ "__mro__"; "area" ]} "__mro__") as (e & σ' & Hrun & _ & Hkeep);
    [by_evaluation..|].
  rewrite Hrun. simpl. rewrite Hkeep by by_evaluation. by_evaluation.
Defined.

Lemma decorator_raises_from_members σ D f H T :
  issubclass σ H D = Return true →
  targets σ D = Return T →
  (∀ m, m ∈ T → intercepted m = false) →
  DELEGATE_MEMBERS_FIELD ∈ T ∨ (∃ e, forwarded_names σ H = Raise e) →
  ∃ σ1,
    decorator D f H σ = (Raise TypeError, σ1)
    ∧ (∀ m, m ∈ T →
         ∃ p, class_dict σ1 H ≫= (λ own, own !! m) = Some (VRef p) ∧ is_accessor σ1 p f m)
    ∧ (∀ k, k ∉ T →
         class_dict σ1 H ≫= (λ own, own !! k) = class_dict σ H ≫= (λ own, own !! k)).
Proof.
  intros Hsub HT Hstored Hfail.
  destruct (issubclass_true _ _ _ Hsub) as (c & cD & Hc & HD & Hin).
  unfold decorator, assert_subclasses, bind, read. rewrite Hsub.
  cbv beta iota delta [ret].
  rewrite (class_getattr_default_class _ _ c) by done. rewrite HT.
  destruct (install_all_spec D f H (elements T) ∅ σ c (c_name cD)) as (σ1 & Hrun1 & Hinst);
    [by apply Forall_forall; intros m Hm%elem_of_elements; apply Hstored
    |done|by unfold class_name; rewrite HD|].
  rewrite Hrun1. rewrite list_to_set_elements_L in Hinst.
  destruct (inst_class _ _ _ _ _ Hinst) as (c0 & c1 & Hc0 & Hc1 & _ & _ & Hout & Hins).
  assert (c0 = c) as -> by congruence.
  change (do members <- class_getattr_default σ1 H DELEGATE_MEMBERS_FIELD (VFrozenset ∅);
          as_set members) with (forwarded_names σ1 H).
  assert (forwarded_names σ1 H = Raise TypeError) as ->.
  { unfold forwarded_names in *.
    rewrite (class_getattr_default_class _ _ c1) by done.
    destruct (decide (DELEGATE_MEMBERS_FIELD ∈ T)) as [Hm|Hm].
    - destruct (Hins _ Hm) as (p & Hp & _).
      by rewrite (type_lookup_own _ _ c1 _ _ Hc1 Hp).
    - destruct Hfail as [?|[e Hraise]]; [done|].
      rewrite (class_getattr_default_class _ _ c) in Hraise by done.
      rewrite (installed_type_lookup f H T σ σ1) by done.
      simpl in *. by destruct (default (VFrozenset ∅) (type_lookup σ H DELEGATE_MEMBERS_FIELD)). }
  exists σ1. split; [done|]. unfold class_dict. rewrite Hc, Hc1. simpl. split.
  - intros m Hm. destruct (Hins m Hm) as (p & Hp & Hacc & _). eauto.
  - intros k Hk. by apply Hout.
Qed.

(** The decorator is not all-or-nothing. The forwarded names of the host are
    read after the loop: when the names to forward are ordinary ones and
    that read fails, because the field holds something that is not a set,
    the decorator raises [TypeError] with every accessor already installed
    on the host and neither ledger field written. *)
Theorem members_failure_keeps_accessors σ D f H T e :
  issubclass σ H D = Return true →
  targets σ D = Return T →
  ordinary_names T →
  forwarded_names σ H = Raise e →
  ∃ σ1,
    decorator D f H σ = (Raise TypeError, σ1)
    ∧ (∀ m, m ∈ T →
         ∃ p, class_dict σ1 H ≫= (λ own, own !! m) = Some (VRef p) ∧ is_accessor σ1 p f m)
    ∧ (∀ k, k ∉ T →
         class_dict σ1 H ≫= (λ own, own !! k) = class_dict σ H ≫= (λ own, own !! k)).
Proof.
  intros Hsub HT Hord Hfail.
  apply (decorator_raises_from_members σ D f H T); eauto using ordinary_names_stored.
Qed.

Lemma members_failure_keeps_accessors_witness :
  ∃ σ1, decorator Odd.Plain "plain" Odd.StaleMembers Odd.start = (Raise TypeError, σ1)
        ∧ ∃ p, class_dict σ1 Odd.StaleMembers ≫= (λ own, own !! "x") = Some (VRef p)
               ∧ is_accessor σ1 p "plain" "x".
Proof.
  destruct (members_failure_keeps_accessors Odd.start Odd.Plain "plain" Odd.StaleMembers
              {[ "x" ]} TypeError) as (σ1 & Hrun & Hacc & _); [by_evaluation..|].
  exists σ1. split; [done|]. apply Hacc. by_evaluation.
Defined.

Lemma decorator_raises_from_bindings σ D f H T inh e :
  issubclass σ H D = Return true →
  targets σ D = Return T →
  (∀ m, m ∈ T → intercepted m = false) →
  DELEGATE_MEMBERS_FIELD ∉ T →
  forwarded_names σ H = Return inh →
  bindings σ H = Raise e →
  ∃ σ2,
    decorator D f H σ = (Raise e, σ2)
    ∧ forwarded_names σ2 H = Return (T ∪ inh)
    ∧ (∀ m, m ∈ T →
         ∃ p, class_dict σ2 H ≫= (λ own, own !! m) = Some (VRef p) ∧ is_accessor σ2 p f m)
    ∧ (DELEGATE_TYPES_FIELD ∉ T →
       class_dict σ2 H ≫= (λ own, own !! DELEGATE_TYPES_FIELD)
       = class_dict σ H ≫= (λ own, own !! DELEGATE_TYPES_FIELD)).
Proof.
  intros Hsub HT Hstored Hfresh Hinh Hprior.
  destruct (issubclass_true _ _ _ Hsub) as (c & cD & Hc & HD & Hin).
  unfold decorator, assert_subclasses, bind, read. rewrite Hsub.
  cbv beta iota delta [ret].
  unfold bindings in Hprior.
  destruct (class_getattr_default σ H DELEGATE_TYPES_FIELD EMPTY_SEQUENCE)
    as [dt|] eqn:Hdt; [|by rewrite (class_getattr_default_class _ _ c) in Hdt].
  rewrite HT.
  destruct (install_all_spec D f H (elements T) ∅ σ c (c_name cD)) as (σ1 & Hrun1 & Hinst);
    [by apply Forall_forall; intros m Hm%elem_of_elements; apply Hstored
    |done|by unfold class_name; rewrite HD|].
  rewrite Hrun1. rewrite list_to_set_elements_L in Hinst.
  destruct (inst_class _ _ _ _ _ Hinst) as (c0 & c1 & Hc0 & Hc1 & _ & _ & Hout & Hins).
  assert (c0 = c) as -> by congruence.
  change (do members <- class_getattr_default σ1 H DELEGATE_MEMBERS_FIELD (VFrozenset ∅);
          as_set members) with (forwarded_names σ1 H).
  assert (forwarded_names σ1 H = Return inh) as ->.
  { unfold forwarded_names in *.
    rewrite (class_getattr_default_class _ _ c1) by done.
    rewrite (class_getattr_default_class _ _ c) in Hinh by done.
    by rewrite (installed_type_lookup f H T σ σ1). }
  rewrite (type_setattr_store H _ _ σ1 c1 (proj1 ledger_not_intercepted) Hc1).
  simpl in Hprior. rewrite Hprior.
  eexists. split; [done|].
  assert (∀ p, p ≠ H → (<[H := OClass
            {| c_name := c_name c1; c_ancestors := c_ancestors c1;
               c_dict := <[DELEGATE_MEMBERS_FIELD :=
                             VFrozenset (list_to_set (elements T) ∪ ∅ ∪ inh)]> (c_dict c1) |}]> σ1)
            !! p = σ1 !! p) as Hother by (by intros p Hp; rewrite lookup_insert_ne).
  split; [|split].
  - unfold forwarded_names.
    erewrite class_getattr_default_class by apply lookup_insert_eq.
    erewrite type_lookup_own; [|apply lookup_insert_eq|apply lookup_insert_eq].
    simpl. do 2 f_equal. rewrite list_to_set_elements_L. set_solver.
  - intros m Hm. destruct (Hins m Hm) as (p & Hp & [d Hacc] & _).
    exists p. unfold class_dict. rewrite lookup_insert_eq. simpl.
    rewrite lookup_insert_ne by (by intros <-). split; [done|].
    exists d. rewrite Hother; [done|]. intros ->. congruence.
  - intros HTy. unfold class_dict. rewrite lookup_insert_eq, Hc. simpl.
    rewrite lookup_insert_ne by done. by apply Hout.
Qed.

(** Likewise the bindings read before the loop are unpacked only in the
    last statement: when the names to forward are ordinary ones and the
    bindings cannot be iterated, the decorator raises after it has installed
    the accessors and stored the new set of forwarded names, and without
    having stored a binding. *)
Theorem bindings_failure_keeps_names σ D f H T inh e :
  issubclass σ H D = Return true →
  targets σ D = Return T →
  ordinary_names T →
  forwarded_names σ H = Return inh →
  bindings σ H = Raise e →
  ∃ σ2,
    decorator D f H σ = (Raise e, σ2)
    ∧ forwarded_names σ2 H = Return (T ∪ inh)
    ∧ (∀ m, m ∈ T →
         ∃ p, class_dict σ2 H ≫= (λ own, own !! m) = Some (VRef p) ∧ is_accessor σ2 p f m)
    ∧ class_dict σ2 H ≫= (λ own, own !! DELEGATE_TYPES_FIELD)
      = class_dict σ H ≫= (λ own, own !! DELEGATE_TYPES_FIELD).
Proof.
  intros Hsub HT Hord Hinh Hprior.
  destruct (ordinary_names_ledger T Hord) as [HM HTy].
  destruct (decorator_raises_from_bindings σ D f H T inh e)
    as (σ2 & Hrun & Hnames & Hacc & Hkeep); eauto using ordinary_names_stored.
  exists σ2. eauto.
Qed.

Lemma bindings_failure_keeps_names_witness :
  ∃ σ2, decorator Odd.Plain "plain" Odd.StaleBindings Odd.start = (Raise TypeError, σ2)
        ∧ forwarded_names σ2 Odd.StaleBindings = Return ({[ "x" ]} ∪ ∅).
Proof.
  destruct (bindings_failure_keeps_names Odd.start Odd.Plain "plain" Odd.StaleBindings
              {[ "x" ]} ∅ TypeError) as (σ2 & Hrun & Hnames & _); [by_evaluation..|].
  by exists σ2.
Defined.

(** ** What an application does to the host *)

(** A name that is not forwarded, other than the two ledger fields, is left
    alone: the host keeps its name, its MRO and its entry for that name,
    and the name resolves on every class as it did before. *)
Theorem unforwarded_names_kept σ D f H r σ' T c k :
  decorator D f H σ = (Return r, σ') →
  targets σ D = Return T →
  σ !! H = Some (OClass c) →
  k ∉ T → k ≠ DELEGATE_TYPES_FIELD → k ≠ DELEGATE_MEMBERS_FIELD →
  (∃ c', σ' !! H = Some (OClass c')
         ∧ c_name c' = c_name c ∧ c_ancestors c' = c_ancestors c
         ∧ c_dict c' !! k = c_dict c !! k)
  ∧ ∀ l, type_lookup σ' l k = type_lookup σ l k.
Proof.
  intros Hrun HT Hc Hk HkT HkM.
  destruct (decorator_Return _ _ _ _ _ _ Hrun) as (_ & T' & inh & prior & Hap).
  assert (T' = T) as -> by (pose proof (ap_targets _ _ _ _ _ _ _ _ Hap); congruence).
  split.
  - destruct (ap_class _ _ _ _ _ _ _ _ Hap)
      as (c0 & c' & Hc0 & Hc' & Hn & Ha & _ & _ & _ & Hout).
    assert (c0 = c) as -> by congruence.
    exists c'. repeat split; try done. by apply Hout.
  - intros l. by apply (applied_type_lookup _ _ _ _ _ _ _ _ l k Hap).
Qed.

Lemma unforwarded_names_kept_witness :
  type_lookup Chain.with_seat Chain.Captain "salute"
  = type_lookup Chain.with_player Chain.Captain "salute".
Proof.
  destruct (unforwarded_names_kept Chain.with_player Chain.Player "player" Chain.Seat
              Chain.Seat Chain.with_seat {[ "id"; "account"; "rank" ]}
              {| c_name := "Seat"; c_ancestors := [Chain.Player; Chain.Account];
                 c_dict := {[ "__annotations__" := VDict [("player", VNone)] ]} |}
              "salute")
    as [_ Hsame]; [by_evaluation..|discriminate|discriminate|].
  apply Hsame.
Defined.

(** A forwarded name gets a new accessor object in the host's own
    [__dict__], whatever the host held under that name before, and the
    accessors of different names are different objects. *)
Theorem accessor_replaces_member σ D f H r σ' T m :
  decorator D f H σ = (Return r, σ') →
  targets σ D = Return T →
  m ∈ T → m ≠ DELEGATE_TYPES_FIELD →
  ∃ p, class_dict σ' H ≫= (λ own, own !! m) = Some (VRef p)
       ∧ is_accessor σ' p f m
       ∧ σ !! p = None
       ∧ ∀ m', m' ∈ T → m' ≠ m → class_dict σ' H ≫= (λ own, own !! m') ≠ Some (VRef p).
Proof.
  intros Hrun HT Hm HmT.
  destruct (decorator_Return _ _ _ _ _ _ Hrun) as (_ & T' & inh & prior & Hap).
  assert (T' = T) as -> by (pose proof (ap_targets _ _ _ _ _ _ _ _ Hap); congruence).
  destruct (ap_class _ _ _ _ _ _ _ _ Hap)
    as (c & c' & Hc & Hc' & _ & _ & HTy & HM & Hins & Hout).
  destruct (Hins m Hm HmT) as (p & Hp & Hacc & Hnew).
  exists p. unfold class_dict. rewrite Hc'. simpl. repeat split; try done.
  intros m' Hm' Hne Hp'.
  destruct (decide (m' = DELEGATE_TYPES_FIELD)) as [->|HmT']; [congruence|].
  destruct (Hins m' Hm' HmT') as (p' & Hp'' & Hacc' & _).
  assert (p' = p) as -> by congruence.
  by destruct (is_accessor_inj _ _ _ _ _ _ Hacc Hacc').
Qed.

Lemma accessor_replaces_member_witness :
  ∃ p, class_dict Odd.linked Odd.Linked ≫= (λ own, own !! "next") = Some (VRef p)
       ∧ is_accessor Odd.linked p "next" "next"
       ∧ class_dict Odd.start Odd.Linked ≫= (λ own, own !! "next")
         = Some (VMemberDescriptor "next").
Proof.
  destruct (accessor_replaces_member Odd.start Odd.Node "next" Odd.Linked Odd.Linked
              Odd.linked {[ "next"; "value" ]} "next") as (p & Hp & Hacc & _);
    [by_evaluation..|discriminate|].
  exists p. split; [done|]. split; [done|]. by_evaluation.
Defined.

(** When two layers forward the same name, the later one wins: after both
    applications the name resolves to an accessor of the second field, a new
    object, and reads on instances go through the second field. *)
Theorem colliding_name_last_wins σ D1 f1 D2 f2 H r1 σ1 r2 σ2 T1 T2 m :
  decorator D1 f1 H σ = (Return r1, σ1) →
  decorator D2 f2 H σ1 = (Return r2, σ2) →
  targets σ D1 = Return T1 →
  targets σ1 D2 = Return T2 →
  m ∈ T1 → m ∈ T2 → m ≠ DELEGATE_TYPES_FIELD →
  (∃ p1, type_lookup σ1 H m = Some (VRef p1) ∧ is_accessor σ1 p1 f1 m)
  ∧ (∃ p2, type_lookup σ2 H m = Some (VRef p2) ∧ is_accessor σ2 p2 f2 m ∧ σ1 !! p2 = None)
  ∧ ∀ h i n,
      σ2 !! h = Some (OInstance i) → i_class i = H →
      i_dict i ≫= (λ own, own !! m) = None →
      getattr (S n) σ2 (VRef h) m =
        (do delegated_object <- getattr n σ2 (VRef h) f2; getattr n σ2 delegated_object m).
Proof.
  intros Hrun1 Hrun2 HT1 HT2 Hm1 Hm2 HmT.
  destruct (decorator_Return _ _ _ _ _ _ Hrun1) as (_ & T1' & inh1 & prior1 & Hap1).
  destruct (decorator_Return _ _ _ _ _ _ Hrun2) as (_ & T2' & inh2 & prior2 & Hap2).
  assert (T1' = T1) as -> by (pose proof (ap_targets _ _ _ _ _ _ _ _ Hap1); congruence).
  assert (T2' = T2) as -> by (pose proof (ap_targets _ _ _ _ _ _ _ _ Hap2); congruence).
  split; [by apply (applied_accessor _ _ _ _ _ _ _ _ m Hap1)|].
  destruct (ap_class _ _ _ _ _ _ _ _ Hap2) as (c1 & c2 & _ & Hc2 & _ & _ & _ & _ & Hins & _).
  destruct (Hins m Hm2 HmT) as (p2 & Hp2 & Hacc2 & Hnew).
  assert (type_lookup σ2 H m = Some (VRef p2)) as Hlook by by eapply type_lookup_own.
  split; [by eauto|].
  intros h i n Hh Hcls Hown.
  apply (getattr_accessor n σ2 h i m p2 f2 m); [done|by rewrite Hcls|done..].
Qed.

Lemma colliding_name_last_wins_witness :
  getattr 4 Chain.with_seat (VRef Chain.a_seat) "id"
  = (do delegated_object <- getattr 3 Chain.with_seat (VRef Chain.a_seat) "player";
     getattr 3 Chain.with_seat delegated_object "id")
  ∧ getattr 4 Chain.with_seat_twice (VRef Chain.a_seat) "id"
    = (do delegated_object <- getattr 3 Chain.with_seat_twice (VRef Chain.a_seat) "account";
       getattr 3 Chain.with_seat_twice delegated_object "id").
Proof.
  split; [by_evaluation|].
  edestruct (colliding_name_last_wins Chain.with_player Chain.Player "player"
               Chain.Account "account" Chain.Seat Chain.Seat Chain.with_seat
               Chain.Seat Chain.with_seat_twice
               {[ "id"; "account"; "rank" ]} {[ "id"; "rank" ]} "id") as (_ & _ & Hread);
    [by_evaluation..|discriminate|].
  apply (Hread Chain.a_seat
           {| i_class := Chain.Seat; i_slots := ∅;
              i_dict := Some {[ "player" := VRef Chain.a_player ]} |} 3); by_evaluation.
Defined.

(** ** Reads through the accessors *)

(** After [delegate_to(D, f)] has been applied to [H], for every forwarded
    name [m] of [D] other than the bindings field, and every instance [h] of
    [H] that has no entry [m] in its own [__dict__] and whose attribute [f]
    reads as [d], reading [h.m] is reading [d.m], one level of depth further
    down. *)
Theorem delegated_read D f H σ r σ' T m h i d n :
  decorator D f H σ = (Return r, σ') →
  targets σ D = Return T →
  m ∈ T →
  m ≠ DELEGATE_TYPES_FIELD →
  σ' !! h = Some (OInstance i) →
  i_class i = H →
  i_dict i ≫= (λ own, own !! m) = None →
  getattr n σ' (VRef h) f = Return d →
  getattr (S n) σ' (VRef h) m = getattr n σ' d m.
Proof.
  intros Hrun HT Hm HmT Hh Hcls Hown Hf.
  destruct (decorator_Return _ _ _ _ _ _ Hrun) as (_ & T' & inh & prior & Hap).
  assert (T' = T) as -> by (pose proof (ap_targets _ _ _ _ _ _ _ _ Hap); congruence).
  destruct (applied_accessor _ _ _ _ _ _ _ _ m Hap Hm HmT) as (p & Hp & Hacc).
  rewrite (getattr_accessor n σ' h i m p f m); [by rewrite Hf|done| |done..].
  by rewrite Hcls.
Qed.

Lemma delegated_read_witness :
  getattr 2 decorated (VRef a_member) "user" = Return (VRef a_user)
  ∧ getattr 3 decorated (VRef a_member) "id" = getattr 2 decorated (VRef a_user) "id".
Proof.
  split; [vm_compute; reflexivity|].
  apply (delegated_read User "user" Member world Member decorated {[ "id"; "name" ]} "id"
           a_member
           {| i_class := Member; i_slots := ∅; i_dict := Some {[ "user" := VRef a_user ]} |}
           (VRef a_user) 2);
    by_evaluation.
Defined.

(** The forwarding is inherited: on an instance of a class that has the
    decorated host next in its MRO and does not define the name itself, a
    forwarded name reads through the delegate field as on the host. *)
Theorem subclass_inherits_forwarding σ D f H r σ' T m Sub cS rest h i d n :
  decorator D f H σ = (Return r, σ') →
  targets σ D = Return T →
  m ∈ T → m ≠ DELEGATE_TYPES_FIELD →
  σ' !! Sub = Some (OClass cS) →
  c_ancestors cS = H :: rest →
  c_dict cS !! m = None →
  σ' !! h = Some (OInstance i) →
  i_class i = Sub →
  i_dict i ≫= (λ own, own !! m) = None →
  getattr n σ' (VRef h) f = Return d →
  getattr (S n) σ' (VRef h) m = getattr n σ' d m.
Proof.
  intros Hrun HT Hm HmT HS Hanc HSm Hh Hcls Hown Hf.
  destruct (decorator_Return _ _ _ _ _ _ Hrun) as (_ & T' & inh & prior & Hap).
  assert (T' = T) as -> by (pose proof (ap_targets _ _ _ _ _ _ _ _ Hap); congruence).
  destruct (ap_class _ _ _ _ _ _ _ _ Hap) as (c & c' & _ & Hc' & _ & _ & _ & _ & Hins & _).
  destruct (Hins m Hm HmT) as (p & Hp & Hacc & _).
  assert (type_lookup σ' Sub m = Some (VRef p)) as Hlook.
  { unfold type_lookup, mro. rewrite HS, Hanc. simpl.
    unfold class_dict. rewrite HS, Hc'. simpl. by rewrite HSm, Hp. }
  rewrite (getattr_accessor n σ' h i m p f m); [by rewrite Hf|done|by rewrite Hcls|done..].
Qed.

Lemma subclass_inherits_forwarding_witness :
  getattr 3 Chain.with_player (VRef Chain.a_captain) "rank"
  = getattr 2 Chain.with_player (VRef Chain.an_account) "rank".
Proof.
  apply (subclass_inherits_forwarding Chain.start Chain.Account "account" Chain.Player
           Chain.Player Chain.with_player {[ "id"; "rank" ]} "rank" Chain.Captain
           {| c_name := "Captain"; c_ancestors := [Chain.Player; Chain.Account];
              c_dict := {[ "salute" := VFunction "Captain.salute" ]} |}
           [Chain.Account] Chain.a_captain
           {| i_class := Chain.Captain; i_slots := ∅;
              i_dict := Some {[ "account" := VRef Chain.an_account ]} |}
           (VRef Chain.an_account) 2); first [by_evaluation|discriminate].
Defined.

(** Delegation chains. When the delegate type is itself a decorated host,
    the names it forwards and that pass the filter by name are classified as
    its members, so the outer host forwards them as well, and a read on the
    outer host goes through both fields, two levels down. *)
Theorem chained_delegation σ D0 g D f H r1 σ1 r2 σ2 T0 m :
  decorator D0 g D σ = (Return r1, σ1) →
  decorator D f H σ1 = (Return r2, σ2) →
  D ≠ H →
  targets σ D0 = Return T0 →
  m ∈ T0 →
  String.prefix "__" m = false →
  m ∉ _SPECIAL_ATTRS_TO_IGNORE →
  (∃ T, targets σ1 D = Return T ∧ m ∈ T)
  ∧ ∀ h i hd id d0 n,
      σ2 !! h = Some (OInstance i) → i_class i = H →
      i_dict i ≫= (λ own, own !! m) = None →
      σ2 !! hd = Some (OInstance id) → i_class id = D →
      i_dict id ≫= (λ own, own !! m) = None →
      getattr (S n) σ2 (VRef h) f = Return (VRef hd) →
      getattr n σ2 (VRef hd) g = Return d0 →
      getattr (S (S n)) σ2 (VRef h) m = getattr n σ2 d0 m.
Proof.
  intros Hrun1 Hrun2 HDH HT0 Hm Hprefix Hspecial.
  destruct (decorator_Return _ _ _ _ _ _ Hrun1) as (_ & T0' & inh1 & prior1 & Hap1).
  destruct (decorator_Return _ _ _ _ _ _ Hrun2) as (_ & T & inh2 & prior2 & Hap2).
  assert (T0' = T0) as -> by (pose proof (ap_targets _ _ _ _ _ _ _ _ Hap1); congruence).
  assert (m ≠ DELEGATE_TYPES_FIELD) as HmT by (by intros ->).
  destruct (ap_class _ _ _ _ _ _ _ _ Hap1) as (c & c1 & _ & Hc1 & _ & _ & _ & _ & Hins & _).
  destruct (Hins m Hm HmT) as (p & Hp & Hacc & _).
  assert (m ∈ T) as HmIn.
  { destruct (proj1 (targets_Return _ _ _) (ap_targets _ _ _ _ _ _ _ _ Hap2))
      as (members & A & Hd & _ & ->).
    apply class_dict_Some in Hd as (c1' & Hc1' & <-).
    assert (c1' = c1) as -> by congruence.
    apply elem_of_union. left. apply elem_of_dict_fields. exists (VRef p).
    split; [done|]. unfold _should_ignore_attribute_for_field.
    rewrite Hprefix. simpl. by apply bool_decide_eq_false. }
  split; [exists T; split; [by eapply ap_targets|done]|].
  intros h i hd id d0 n Hh Hcls Hown Hhd Hclsd Hownd Hf Hg.
  destruct (applied_accessor _ _ _ _ _ _ _ _ m Hap2 HmIn HmT) as (q & Hq & Haccq).
  rewrite (getattr_accessor (S n) σ2 h i m q f m); [|done|by rewrite Hcls|done..].
  rewrite Hf. change (getattr (S n) σ2 (VRef hd) m = getattr n σ2 d0 m).
  assert (σ2 !! D = Some (OClass c1)) as HD2.
  { destruct (ap_preserves _ _ _ _ _ _ _ _ Hap2) as [F _].
    rewrite F; [done..|by rewrite Hc1]. }
  rewrite (getattr_accessor n σ2 hd id m p g m); [by rewrite Hg|done| |by eapply applied_is_accessor|done].
  rewrite Hclsd. by eapply type_lookup_own.
Qed.

Lemma chained_delegation_witness :
  getattr 3 Chain.with_seat (VRef Chain.a_seat) "id"
  = getattr 1 Chain.with_seat (VRef Chain.an_account) "id".
Proof.
  edestruct (chained_delegation Chain.start Chain.Account "account" Chain.Player "player"
               Chain.Seat Chain.Player Chain.with_player Chain.Seat Chain.with_seat
               {[ "id"; "rank" ]} "id") as [_ Hread];
    [by_evaluation|by_evaluation|discriminate|by_evaluation..|].
  apply (Hread Chain.a_seat
           {| i_class := Chain.Seat; i_slots := ∅;
              i_dict := Some {[ "player" := VRef Chain.a_player ]} |}
           Chain.a_player
           {| i_class := Chain.Player; i_slots := ∅;
              i_dict := Some {[ "account" := VRef Chain.an_account ]} |}
           (VRef Chain.an_account) 1); by_evaluation.
Defined.

(** A failure to read the delegate field is the failure of the forwarded
    read: an instance whose field is not set raises the same error for
    every forwarded name. *)
Theorem delegate_errors_propagate σ D f H r σ' T m h i e n :
  decorator D f H σ = (Return r, σ') →
  targets σ D = Return T →
  m ∈ T → m ≠ DELEGATE_TYPES_FIELD →
  σ' !! h = Some (OInstance i) →
  i_class i = H →
  i_dict i ≫= (λ own, own !! m) = None →
  getattr n σ' (VRef h) f = Raise e →
  getattr (S n) σ' (VRef h) m = Raise e.
Proof.
  intros Hrun HT Hm HmT Hh Hcls Hown Hf.
  destruct (decorator_Return _ _ _ _ _ _ Hrun) as (_ & T' & inh & prior & Hap).
  assert (T' = T) as -> by (pose proof (ap_targets _ _ _ _ _ _ _ _ Hap); congruence).
  destruct (applied_accessor _ _ _ _ _ _ _ _ m Hap Hm HmT) as (p & Hp & Hacc).
  rewrite (getattr_accessor n σ' h i m p f m); [by rewrite Hf|done|by rewrite Hcls|done..].
Qed.

Lemma delegate_errors_propagate_witness :
  getattr 1 Chain.with_player (VRef Chain.an_empty_player) "account" = Raise AttributeError
  ∧ getattr 2 Chain.with_player (VRef Chain.an_empty_player) "id" = Raise AttributeError.
Proof.
  split; [by_evaluation|].
  apply (delegate_errors_propagate Chain.start Chain.Account "account" Chain.Player
           Chain.Player Chain.with_player {[ "id"; "rank" ]} "id" Chain.an_empty_player
           {| i_class := Chain.Player; i_slots := ∅; i_dict := Some ∅ |}
           AttributeError 1); first [by_evaluation|discriminate].
Defined.

(** When the delegate type has a member called like the field itself, the
    field is forwarded to itself: on an instance that has no entry for the
    field in its own [__dict__], a slotted one for example, reading the
    field or any forwarded name exhausts every recursion depth. *)
Theorem field_forwarded_to_itself σ D f H r σ' T h i :
  decorator D f H σ = (Return r, σ') →
  targets σ D = Return T →
  f ∈ T → f ≠ DELEGATE_TYPES_FIELD →
  σ' !! h = Some (OInstance i) →
  i_class i = H →
  i_dict i ≫= (λ own, own !! f) = None →
  ∀ n, getattr n σ' (VRef h) f = Raise RecursionError
       ∧ ∀ m, m ∈ T → m ≠ DELEGATE_TYPES_FIELD →
              i_dict i ≫= (λ own, own !! m) = None →
              getattr n σ' (VRef h) m = Raise RecursionError.
Proof.
  intros Hrun HT Hf HfT Hh Hcls Hown.
  destruct (decorator_Return _ _ _ _ _ _ Hrun) as (_ & T' & inh & prior & Hap).
  assert (T' = T) as -> by (pose proof (ap_targets _ _ _ _ _ _ _ _ Hap); congruence).
  assert (∀ n, getattr n σ' (VRef h) f = Raise RecursionError) as Hloop.
  { destruct (applied_accessor _ _ _ _ _ _ _ _ f Hap Hf HfT) as (p & Hp & Hacc).
    induction n as [|n IH]; [done|].
    rewrite (getattr_accessor n σ' h i f p f f); [by rewrite IH|done|by rewrite Hcls|done..]. }
  intros n. split; [done|]. intros m Hm HmT Hownm.
  destruct n as [|n]; [done|].
  destruct (applied_accessor _ _ _ _ _ _ _ _ m Hap Hm HmT) as (p & Hp & Hacc).
  rewrite (getattr_accessor n σ' h i m p f m); [by rewrite Hloop|done|by rewrite Hcls|done..].
Qed.

Lemma field_forwarded_to_itself_witness :
  getattr 5 Odd.start (VRef Odd.a_linked) "next" = Return VNone
  ∧ getattr 1000 Odd.linked (VRef Odd.a_linked) "next" = Raise RecursionError.
Proof.
  split; [by_evaluation|].
  apply (field_forwarded_to_itself Odd.start Odd.Node "next" Odd.Linked Odd.Linked Odd.linked
           {[ "next"; "value" ]} Odd.a_linked
           {| i_class := Odd.Linked; i_slots := {[ "next" := VNone ]}; i_dict := None |});
    first [by_evaluation|discriminate].
Defined.

(** The accessor takes precedence over a slot that the host inherits from
    the delegate type. Before the application a name declared in the
    [__slots__] of the delegate type reads the host's own slot; afterwards
    it reads through the delegate field, whatever the slot holds. *)
Theorem accessor_shadows_inherited_slot σ D f H r σ' T m slot h i n :
  decorator D f H σ = (Return r, σ') →
  targets σ D = Return T →
  m ∈ T → m ≠ DELEGATE_TYPES_FIELD →
  type_lookup σ H m = Some (VMemberDescriptor slot) →
  σ !! h = Some (OInstance i) →
  i_class i = H →
  i_dict i ≫= (λ own, own !! m) = None →
  getattr (S n) σ (VRef h) m = from_option Return (Raise AttributeError) (i_slots i !! slot)
  ∧ getattr (S n) σ' (VRef h) m =
      (do delegated_object <- getattr n σ' (VRef h) f; getattr n σ' delegated_object m).
Proof.
  intros Hrun HT Hm HmT Hslot Hh Hcls Hown.
  destruct (decorator_Return _ _ _ _ _ _ Hrun) as (_ & T' & inh & prior & Hap).
  assert (T' = T) as -> by (pose proof (ap_targets _ _ _ _ _ _ _ _ Hap); congruence).
  split.
  - simpl. unfold getattr_at_depth. by rewrite Hh, Hcls, Hslot.
  - destruct (applied_accessor _ _ _ _ _ _ _ _ m Hap Hm HmT) as (p & Hp & Hacc).
    assert (σ' !! h = Some (OInstance i)) as Hh'.
    { destruct (ap_class _ _ _ _ _ _ _ _ Hap) as (c & _ & Hc & _).
      destruct (ap_preserves _ _ _ _ _ _ _ _ Hap) as [F _].
      rewrite F; [done| |by rewrite Hh]. intros ->. congruence. }
    apply (getattr_accessor n σ' h i m p f m); [done|by rewrite Hcls|done..].
Qed.

Lemma accessor_shadows_inherited_slot_witness :
  getattr 3 Odd.start (VRef Odd.a_slotted_host) "value" = Return (VInt 0)
  ∧ getattr 3 Odd.slotted (VRef Odd.a_slotted_host) "value" = Return (VInt 5).
Proof.
  destruct (accessor_shadows_inherited_slot Odd.start Odd.Slotted "inner" Odd.SlottedHost
              Odd.SlottedHost Odd.slotted {[ "value" ]} "value" "value" Odd.a_slotted_host
              {| i_class := Odd.SlottedHost;
                 i_slots := {[ "inner" := VRef Odd.a_slotted; "value" := VInt 0 ]};
                 i_dict := None |} 2) as [Hbefore Hafter];
    [by_evaluation..|discriminate|by_evaluation|by_evaluation|by_evaluation|by_evaluation|].
  split.
  - rewrite Hbefore. by_evaluation.
  - rewrite Hafter. by_evaluation.
Defined.

(** ** Writes on instances *)

Lemma object_setattr_type_lookup h name v σ r σ' l k :
  object_setattr h name v σ = (r, σ') →
  type_lookup σ' l k = type_lookup σ l k.
Proof.
  intros Hrun.
  assert (∀ l', σ' !! l' = σ !! l'
                ∨ ∃ i i', l' = h ∧ σ !! h = Some (OInstance i)
                          ∧ σ' !! h = Some (OInstance i')) as Hobj.
  { intros l'. unfold object_setattr in Hrun.
    destruct (σ !! h) as [[|i|]|] eqn:Hh; try (injection Hrun as <- <-; by left).
    destruct (decide (l' = h)) as [->|Hne].
    - right. exists i.
      destruct (type_lookup σ (i_class i) name) as [[]|]; try destruct (i_dict i);
        injection Hrun as <- <-; rewrite ?lookup_insert_eq; eauto.
    - left.
      destruct (type_lookup σ (i_class i) name) as [[]|]; try destruct (i_dict i);
        injection Hrun as <- <-; by rewrite ?lookup_insert_ne. }
  assert (∀ l', class_dict σ' l' = class_dict σ l') as Hdict.
  { intros l'. unfold class_dict.
    destruct (Hobj l') as [->|(i & i' & -> & -> & ->)]; done. }
  unfold type_lookup.
  assert (mro σ' l = mro σ l) as ->.
  { unfold mro. destruct (Hobj l) as [->|(i & i' & -> & -> & ->)]; done. }
  apply lookup_along_ext. intros l' _. by rewrite Hdict.
Qed.

Lemma object_setattr_read_back σ h name v σ' n :
  object_setattr h name v σ = (Return (), σ') →
  getattr (S n) σ' (VRef h) name = Return v.
Proof.
  intros Hrun.
  pose proof (λ l, object_setattr_type_lookup _ _ _ _ _ _ l name Hrun) as Hlook.
  unfold object_setattr in Hrun. simpl. unfold getattr_at_depth.
  destruct (σ !! h) as [[|i|]|] eqn:Hh; try done.
  specialize (Hlook (i_class i)).
  destruct (type_lookup σ (i_class i) name) as [attr|] eqn:Hattr.
  - destruct attr; try (destruct (i_dict i) as [own|]; [|done]);
      injection Hrun as <-; rewrite lookup_insert_eq; simpl; rewrite Hlook;
      simpl; by rewrite lookup_insert_eq.
  - destruct (i_dict i) as [own|]; [|done].
    injection Hrun as <-. rewrite lookup_insert_eq. simpl. rewrite Hlook.
    simpl. by rewrite lookup_insert_eq.
Qed.

(** What was assigned is read back. This holds for a forwarded name too:
    once it has been assigned on an instance with a [__dict__], the instance
    reads its own value from then on and no longer the delegate's. *)
Theorem write_then_read σ h name v σ' n :
  object_setattr h name v σ = (Return (), σ') →
  getattr (S n) σ' (VRef h) name = Return v.
Proof. exact (object_setattr_read_back σ h name v σ' n). Qed.

Lemma write_then_read_witness :
  getattr 3 decorated (VRef a_member) "id" = Return (VInt 7)
  ∧ getattr 3 (object_setattr a_member "id" (VInt 5) decorated).2 (VRef a_member) "id"
    = Return (VInt 5).
Proof.
  split; [by_evaluation|].
  apply (write_then_read decorated a_member "id" (VInt 5)). by_evaluation.
Defined.

(** Rebinding the delegate field takes effect at once: after the field has
    been assigned, a forwarded name reads from the new delegate. *)
Theorem rebinding_delegate_field σ h i f v m m' p σ' n :
  σ !! h = Some (OInstance i) →
  type_lookup σ (i_class i) m = Some (VRef p) →
  is_accessor σ p f m' →
  m ≠ f →
  i_dict i ≫= (λ own, own !! m) = None →
  object_setattr h f v σ = (Return (), σ') →
  getattr (S (S n)) σ' (VRef h) m = getattr (S n) σ' v m'.
Proof.
  intros Hh Hm [d Hp] Hne Hown Hrun.
  pose proof (object_setattr_read_back _ _ _ _ _ n Hrun) as Hback.
  pose proof (object_setattr_type_lookup _ _ _ _ _ _ (i_class i) m Hrun) as Hlook.
  assert (h ≠ p) as Hhp by (intros ->; congruence).
  assert (∃ i', σ' !! h = Some (OInstance i') ∧ i_class i' = i_class i
                ∧ i_dict i' ≫= (λ own, own !! m) = None
                ∧ σ' !! p = σ !! p) as (i' & Hh' & Hcls & Hown' & Hp').
  { unfold object_setattr in Hrun. rewrite Hh in Hrun.
    destruct (type_lookup σ (i_class i) f) as [[]|]; try destruct (i_dict i) as [own|] eqn:Hd;
      try done; injection Hrun as <-; eexists;
      rewrite lookup_insert_eq, lookup_insert_ne by done;
      (split; [done|]); simpl; repeat split; try done;
      by rewrite ?Hd; simpl in *; rewrite ?lookup_insert_ne. }
  rewrite (getattr_accessor (S n) σ' h i' m p f m'); [by rewrite Hback|done| |by exists d; rewrite Hp'|done].
  by rewrite Hcls, Hlook.
Qed.

Lemma rebinding_delegate_field_witness :
  getattr 3 Chain.with_player (VRef Chain.a_player) "id" = Return (VInt 7)
  ∧ getattr 3 (object_setattr Chain.a_player "account" (VRef Chain.another_account)
                 Chain.with_player).2 (VRef Chain.a_player) "id"
    = Return (VInt 8).
Proof.
  split; [by_evaluation|].
  assert (getattr 2 (object_setattr Chain.a_player "account" (VRef Chain.another_account)
                       Chain.with_player).2 (VRef Chain.another_account) "id"
          = Return (VInt 8)) as <- by by_evaluation.
  apply (rebinding_delegate_field Chain.with_player Chain.a_player
           {| i_class := Chain.Player; i_slots := ∅;
              i_dict := Some {[ "account" := VRef Chain.an_account ]} |}
           "account" (VRef Chain.another_account) "id" "id" 16%positive);
    first [by_evaluation | discriminate | eexists; vm_compute; reflexivity].
Defined.

(** ** Recursion depth *)

(** A read that completes within some depth, with a value or with an error
    other than the exhaustion of the depth, completes with the same outcome
    at every greater depth. *)
Theorem deeper_reads_agree (n k : nat) σ o name r :
  getattr n σ o name = r →
  r ≠ Raise RecursionError →
  (n ≤ k)%nat →
  getattr k σ o name = r.
Proof.
  intros Hrun Hr Hle. induction Hle as [|k Hle IH]; [done|].
  by apply getattr_mono.
Qed.

Lemma deeper_reads_agree_witness :
  getattr 2 Chain.with_seat (VRef Chain.a_seat) "id" = Raise RecursionError
  ∧ getattr 40 Chain.with_seat (VRef Chain.a_seat) "id" = Return (VInt 7).
Proof.
  split; [by_evaluation|].
  apply (deeper_reads_agree 3 40 Chain.with_seat (VRef Chain.a_seat) "id");
    first [by_evaluation | discriminate | lia].
Defined.

(** ** The docstrings of the accessors *)

Lemma install_documented D f cls name σ c nm r σ' :
  σ !! cls = Some (OClass c) →
  class_name σ D = Return nm →
  install D f cls name σ = (r, σ') →
  documented f nm σ σ'.
Proof.
  intros Hc Hnm. unfold install, bind, read, alloc, type_setattr. rewrite Hnm. simpl.
  pose proof (is_fresh (dom σ)) as Hfresh.
  set (q := fresh (dom σ)) in *.
  assert (σ !! q = None) as Hq. { apply not_elem_of_dom. exact Hfresh. }
  assert (q ≠ cls) as Hne by (intros ->; congruence).
  rewrite lookup_insert_ne, Hc by done.
  destruct (type_setattr_class name (VRef q) c) as [c'|e]; intros [= <- <-];
    intros p o Hp Ho.
  - assert (cls ≠ p) as Hcp by (intros ->; congruence).
    rewrite lookup_insert_ne in Ho by done.
    destruct (decide (q = p)) as [<-|Hqp].
    + rewrite lookup_insert_eq in Ho. injection Ho as <-. by exists name.
    + rewrite lookup_insert_ne in Ho by done. congruence.
  - destruct (decide (q = p)) as [<-|Hqp].
    + rewrite lookup_insert_eq in Ho. injection Ho as <-. by exists name.
    + rewrite lookup_insert_ne in Ho by done. congruence.
Qed.

Lemma documented_trans f nm cls σ1 σ2 σ3 :
  is_Some (σ1 !! cls) →
  documented f nm σ1 σ2 → preserves cls σ2 σ3 → documented f nm σ2 σ3 →
  documented f nm σ1 σ3.
Proof.
  intros Hcls H12 [F _] H23 p o Hp Ho.
  destruct (σ2 !! p) as [o2|] eqn:Hp2; [|by eapply H23].
  assert (p ≠ cls) as Hne by (intros ->; destruct Hcls; congruence).
  rewrite F in Ho; [|done|by rewrite Hp2].
  apply (H12 p o); congruence.
Qed.

Lemma install_all_documented D f cls names : ∀ acc σ c nm r σ',
  σ !! cls = Some (OClass c) →
  class_name σ D = Return nm →
  install_all D f cls names acc σ = (r, σ') →
  documented f nm σ σ'.
Proof.
  induction names as [|name names IH]; intros acc σ c nm r σ' Hc Hnm; simpl.
  - intros [= <- <-] p o Hp Ho. congruence.
  - unfold bind. destruct (intercepted name) eqn:Hname.
    + destruct (install_rejected D f cls name σ c nm Hname Hc Hnm)
        as (e & σ1 & Hrej & _).
      rewrite Hrej. intros [= <- <-]. by eapply install_documented.
    + destruct (install_spec D f cls name σ c nm Hname Hc Hnm)
        as (σ1 & Hrun & Hinst & Hnm1).
      destruct (inst_class _ _ _ _ _ Hinst) as (c0 & c1 & _ & Hc1 & _).
      rewrite Hrun. intros Hrest.
      eapply (documented_trans f nm cls σ σ1 σ'); [by rewrite Hc| | |].
      * by eapply install_documented.
      * by eapply frames_install_all.
      * by eapply IH.
Qed.

(** Every accessor that an application creates carries the field name, the
    member name and the docstring [See :attr:`D.m`.] of its member, which is
    what reading these three attributes on the accessor of a forwarded name
    returns. *)
Theorem accessors_documented σ D f H r σ' T cD m :
  decorator D f H σ = (Return r, σ') →
  targets σ D = Return T →
  σ !! D = Some (OClass cD) →
  m ∈ T → m ≠ DELEGATE_TYPES_FIELD →
  ∃ p, class_dict σ' H ≫= (λ own, own !! m) = Some (VRef p)
       ∧ getattr 1 σ' (VRef p) "magic_field" = Return (VStr f)
       ∧ getattr 1 σ' (VRef p) "delegated_member_name" = Return (VStr m)
       ∧ getattr 1 σ' (VRef p) "__doc__"
         = Return (VStr ("See :attr:`" +:+ c_name cD +:+ "." +:+ m +:+ "`.")).
Proof.
  intros Hrun HT HD Hm HmT.
  assert (documented f (c_name cD) σ σ') as Hdoc.
  { revert Hrun. unfold decorator, assert_subclasses, bind, read.
    destruct (issubclass σ H D) as [[|]|e] eqn:Hsub; try done.
    destruct (issubclass_true _ _ _ Hsub) as (c & cD' & Hc & HD' & Hin).
    cbv beta iota delta [ret].
    destruct (class_getattr_default σ H DELEGATE_TYPES_FIELD EMPTY_SEQUENCE)
      as [dt|]; [|done].
    rewrite HT.
    destruct (install_all D f H (elements T) ∅ σ) as [[acc|e] σ1] eqn:Hrun1; [|done].
    pose proof (install_all_documented D f H _ _ _ c (c_name cD) _ _ Hc
                  ltac:(by unfold class_name; rewrite HD) Hrun1) as Hdoc1.
    assert (class_name σ D = Return (c_name cD)) as Hnm
      by (by unfold class_name; rewrite HD).
    pose proof (install_all_Return D f H _ _ _ c _ _ _ Hc Hnm Hrun1) as Hnames.
    destruct (install_all_spec D f H (elements T) ∅ σ c (c_name cD) Hnames Hc Hnm)
      as (σ1' & Hrun1' & Hinst).
    assert (σ1' = σ1) as -> by congruence.
    destruct (inst_class _ _ _ _ _ Hinst) as (c0 & c1 & _ & Hc1 & _).
    destruct (do members <- class_getattr_default σ1 H DELEGATE_MEMBERS_FIELD (VFrozenset ∅);
              as_set members) as [inh|]; [|done].
    rewrite (type_setattr_store H _ _ σ1 c1 (proj1 ledger_not_intercepted) Hc1).
    destruct (iter dt) as [prior|]; [|done].
    erewrite type_setattr_store; [|apply ledger_not_intercepted|apply lookup_insert_eq].
    intros [= _ <-].
    intros p o Hp Ho.
    assert (H ≠ p) as Hne by (intros ->; congruence).
    rewrite !lookup_insert_ne in Ho by done. by apply (Hdoc1 p o). }
  destruct (decorator_Return _ _ _ _ _ _ Hrun) as (_ & T' & inh & prior & Hap).
  assert (T' = T) as -> by (pose proof (ap_targets _ _ _ _ _ _ _ _ Hap); congruence).
  destruct (ap_class _ _ _ _ _ _ _ _ Hap) as (c & c' & _ & Hc' & _ & _ & _ & _ & Hins & _).
  destruct (Hins m Hm HmT) as (p & Hp & [d Hacc] & Hnew).
  destruct (Hdoc p _ Hnew Hacc) as (m0 & [= <- ->]).
  exists p. unfold class_dict. rewrite Hc'. simpl. split; [done|].
  unfold getattr_at_depth. rewrite Hacc. repeat split.
Qed.

Lemma accessors_documented_witness :
  ∃ p, class_dict decorated Member ≫= (λ own, own !! "name") = Some (VRef p)
       ∧ getattr 1 decorated (VRef p) "__doc__" = Return (VStr "See :attr:`User.name`.").
Proof.
  destruct (accessors_documented world User "user" Member Member decorated
              {[ "id"; "name" ]}
              {| c_name := "User"; c_ancestors := [];
                 c_dict := {[ "__annotations__" := VDict [("id", VNone); ("name", VNone)];
                              "mention" := VFunction "User.mention" ]} |}
              "name") as (p & Hp & _ & _ & Hdoc); [by_evaluation..|discriminate|].
  exists p. split; [done|]. exact Hdoc.
Defined.

(** ** The errors of the decorator *)

Lemma names_of_raises vs e : names_of vs = Raise e → e = TypeError.
Proof.
  induction vs as [|v vs IH]; [done|]. simpl.
  destruct v; try (by intros [= <-]).
  destruct (names_of vs) as [names|e']; [done|]. simpl. intros [= <-]. by apply IH.
Qed.

Lemma iter_raises v e : iter v = Raise e → e = TypeError.
Proof. destruct v; simpl; congruence. Qed.

Lemma targets_raises σ D c e :
  σ !! D = Some (OClass c) → targets σ D = Raise e → e = TypeError.
Proof.
  intros Hc. unfold targets, class_dict, annotation_fields. rewrite Hc.
  rewrite (class_getattr_default_class _ _ c) by done. simpl.
  destruct (iter _) as [keys|e'] eqn:Hiter; simpl.
  - destruct (names_of keys) as [names|e'] eqn:Hnames; simpl; [done|].
    intros [= <-]. by eapply names_of_raises.
  - intros [= <-]. by eapply iter_raises.
Qed.

Lemma decorator_raises σ D f H e σ' :
  issubclass σ H D = Return true →
  decorator D f H σ = (Raise e, σ') →
  e = TypeError ∨ e = AttributeError.
Proof.
  intros Hsub.
  destruct (issubclass_true _ _ _ Hsub) as (c & cD & Hc & HD & Hin).
  unfold decorator, assert_subclasses, bind, read. rewrite Hsub.
  cbv beta iota delta [ret].
  rewrite (class_getattr_default_class _ _ c) by done.
  destruct (targets σ D) as [T|e1] eqn:HT;
    [|intros [= <- _]; left; by eapply targets_raises].
  assert (class_name σ D = Return (c_name cD)) as Hnm
    by (by unfold class_name; rewrite HD).
  destruct (install_all D f H (elements T) ∅ σ) as [[r1|e1] σ1] eqn:Hrun1.
  - pose proof (install_all_Return D f H _ _ _ c _ _ _ Hc Hnm Hrun1) as Hnames.
    destruct (install_all_spec D f H (elements T) ∅ σ c (c_name cD) Hnames Hc Hnm)
      as (σ1' & Hrun1' & Hinst).
    assert (σ1' = σ1) as -> by congruence.
    destruct (inst_class _ _ _ _ _ Hinst) as (c0 & c1 & _ & Hc1 & _).
    change (do members <- class_getattr_default σ1 H DELEGATE_MEMBERS_FIELD (VFrozenset ∅);
            as_set members) with (forwarded_names σ1 H).
    destruct (forwarded_names σ1 H) as [inh|e2] eqn:Hinh.
    + rewrite (type_setattr_store H _ _ σ1 c1 (proj1 ledger_not_intercepted) Hc1).
      destruct (iter _) as [prior|e3] eqn:Hprior.
      * erewrite type_setattr_store;
          [|apply ledger_not_intercepted|apply lookup_insert_eq]. done.
      * intros [= <- _]. left. by eapply iter_raises.
    + intros [= <- _]. left. unfold forwarded_names in Hinh.
      rewrite (class_getattr_default_class _ _ c1) in Hinh by done.
      simpl in Hinh. unfold as_set in Hinh. destruct (default _ _); congruence.
  - intros [= <- _].
    destruct (install_all_raises D f H _ _ _ c _ _ _ Hc Hnm Hrun1) as [[->| ->] _]; eauto.
Qed.

(** Once the subclass assertion has passed, the decorator fails with a
    [TypeError] or an [AttributeError] or not at all. When the names to
    forward are ordinary ones, a failure is a [TypeError] and has one of
    two causes: the forwarded-names field of the host does not hold a set,
    or the bindings visible on the host cannot be iterated. *)
Theorem failure_causes σ D f H e σ' :
  issubclass σ H D = Return true →
  decorator D f H σ = (Raise e, σ') →
  (e = TypeError ∨ e = AttributeError)
  ∧ ∀ T, targets σ D = Return T → ordinary_names T →
         e = TypeError
         ∧ (forwarded_names σ H = Raise TypeError ∨ bindings σ H = Raise TypeError).
Proof.
  intros Hsub Hrun. split; [by eapply decorator_raises|].
  intros T HT Hord.
  destruct (issubclass_true _ _ _ Hsub) as (c & cD & Hc & HD & Hin).
  pose proof (ordinary_names_stored T) as Hstored.
  destruct (ordinary_names_ledger T Hord) as [HM _].
  destruct (forwarded_names σ H) as [inh|e2] eqn:Hinh.
  - destruct (bindings σ H) as [prior|e3] eqn:Hprior.
    + destruct (decorator_succeeds σ D f H T inh prior) as [σ2 Hrun2]; eauto.
      congruence.
    + destruct (decorator_raises_from_bindings σ D f H T inh e3)
        as (σ2 & Hrun2 & _); eauto.
      rewrite Hrun2 in Hrun. injection Hrun as <- _.
      assert (e3 = TypeError) as ->.
      { unfold bindings in Hprior.
        rewrite (class_getattr_default_class _ _ c) in Hprior by done.
        by eapply iter_raises. }
      eauto.
  - assert (e2 = TypeError) as ->.
    { unfold forwarded_names in Hinh.
      rewrite (class_getattr_default_class _ _ c) in Hinh by done.
      simpl in Hinh. unfold as_set in Hinh.
      destruct (default _ _); congruence. }
    destruct (decorator_raises_from_members σ D f H T Hsub HT) as (σ1 & Hrun1 & _);
      [by eauto|by eauto|]. rewrite Hrun1 in Hrun. injection Hrun as <- _. eauto.
Qed.

Lemma failure_causes_witness :
  (decorator Odd.Plain "plain" Odd.StaleBindings Odd.start).1 = Raise TypeError
  ∧ (forwarded_names Odd.start Odd.StaleBindings = Raise TypeError
     ∨ bindings Odd.start Odd.StaleBindings = Raise TypeError).
Proof.
  split; [by_evaluation|].
  destruct (failure_causes Odd.start Odd.Plain "plain" Odd.StaleBindings TypeError
              (decorator Odd.Plain "plain" Odd.StaleBindings Odd.start).2)
    as [_ Hcause]; [by_evaluation..|].
  apply (Hcause {[ "x" ]}); by_evaluation.
Defined.

Lemma reapplication_succeeds_witness :
  ∃ σ'', decorator User "user" Member decorated = (Return Member, σ'').
Proof.
  apply (reapplication_succeeds world User "user" Member Member decorated); by_evaluation.
Defined.

(** ** One delegate, many hosts *)

(** A write to the delegate is seen through every host that holds it: after
    a member of the delegate has been assigned, each host whose field reads
    as that delegate reads the new value under the forwarded name. *)
Theorem delegate_write_is_shared σ h i f m p d v σ' n :
  σ !! h = Some (OInstance i) →
  h ≠ d →
  type_lookup σ (i_class i) m = Some (VRef p) →
  is_accessor σ p f m →
  i_dict i ≫= (λ own, own !! m) = None →
  object_setattr d m v σ = (Return (), σ') →
  getattr (S n) σ' (VRef h) f = Return (VRef d) →
  getattr (S (S n)) σ' (VRef h) m = Return v.
Proof.
  intros Hh Hhd Hm [dc Hp] Hown Hrun Hf.
  pose proof (object_setattr_read_back _ _ _ _ _ n Hrun) as Hback.
  pose proof (object_setattr_type_lookup _ _ _ _ _ _ (i_class i) m Hrun) as Hlook.
  assert (σ' !! h = σ !! h ∧ σ' !! p = σ !! p) as [Hh' Hp'].
  { unfold object_setattr in Hrun.
    destruct (σ !! d) as [[|id|]|] eqn:Hd; try done.
    assert (d ≠ p) by (intros ->; congruence).
    destruct (type_lookup σ (i_class id) m) as [[]|]; try destruct (i_dict id);
      try done; injection Hrun as <-; by rewrite !lookup_insert_ne. }
  rewrite (getattr_accessor (S n) σ' h i m p f m);
    [by rewrite Hf|congruence|congruence|by exists dc; rewrite Hp'|done].
Qed.

Lemma delegate_write_is_shared_witness :
  getattr 3 (object_setattr Chain.an_account "rank" (VInt 9) Chain.with_player).2
    (VRef Chain.a_player) "rank" = Return (VInt 9)
  ∧ getattr 3 (object_setattr Chain.an_account "rank" (VInt 9) Chain.with_player).2
      (VRef Chain.a_captain) "rank" = Return (VInt 9).
Proof.
  split.
  - apply (delegate_write_is_shared Chain.with_player Chain.a_player
             {| i_class := Chain.Player; i_slots := ∅;
                i_dict := Some {[ "account" := VRef Chain.an_account ]} |}
             "account" "rank" 17%positive Chain.an_account (VInt 9));
      first [by_evaluation | discriminate | eexists; vm_compute; reflexivity].
  - apply (delegate_write_is_shared Chain.with_player Chain.a_captain
             {| i_class := Chain.Captain; i_slots := ∅;
                i_dict := Some {[ "account" := VRef Chain.an_account ]} |}
             "account" "rank" 17%positive Chain.an_account (VInt 9));
      first [by_evaluation | discriminate | eexists; vm_compute; reflexivity].
Defined.

End Delegate.
